(** * Weight perturbation (snn-wp): a shallow embedding of
    [weight_perturbation.py] and the properties of its gradient estimator,
    perturbation sampler, dictionary arithmetic and update rule.

    Modelling decisions.

    - A Python [dict] with string keys is an insertion-ordered association
      list whose keys are pairwise distinct ([dict_wf]).  Item assignment
      [d[k] = v] is [dict_set]; subscription [d[k]] is [dict_subscript] and
      raises [KeyError] on a missing key.  A dict comprehension is a loop of
      item assignments over [items()], exactly as CPython runs it.
    - Numbers are not fixed by the source (it is duck typed): scalars
      ([lr], [scale], losses) are a type with the operators the source
      applies to them ([Scalar]), dictionary values (weights, arrays) are a
      type with [+], [*] and [.shape] ([Value]).  Algebraic facts are proved
      under the usual field and module laws; the functions are run on exact
      rationals and on IEEE 754 binary64.
    - The two external collaborators, [sampler.sample] and [forward_pass], are
      stateful total functions over an abstract world [W].  Every call is
      recorded in a trace so that "how often, with which arguments, in which
      order" can be stated.
    - Python exceptions are the [Raise] case of [result]; the monad [M]
      threads the world and the trace and keeps both when an exception
      propagates. *)

From Stdlib Require Import List String Ascii QArith Qcanon Field PrimFloat.
Import ListNotations.
Open Scope string_scope.

Set Implicit Arguments.

(** ** Exceptions and results *)

Inductive exn : Type :=
| KeyError (key : string)
| ValueError (msg : string)
| ZeroDivisionError
| OverflowError.

Inductive result (A : Type) : Type :=
| Ok (a : A)
| Raise (e : exn).

Arguments Ok {A} a.
Arguments Raise {A} e.

Definition rbind {A B : Type} (r : result A) (k : A -> result B) : result B :=
  match r with
  | Ok a => k a
  | Raise e => Raise e
  end.

Declare Scope result_scope.
Delimit Scope result_scope with result.
Notation "'let?' x ':=' c1 'in' c2" := (rbind c1 (fun x => c2))
  (at level 61, x name, c1 at next level, right associativity) : result_scope.

(** ** Dictionaries *)

Definition dict (V : Type) : Type := list (string * V).

Section Dict.
Context {V : Type}.

(** [d.get(key)] *)
Fixpoint dict_get (d : dict V) (key : string) : option V :=
  match d with
  | [] => None
  | (k, v) :: rest => if String.eqb k key then Some v else dict_get rest key
  end.

(** [d[key]] in an expression: [KeyError] when the key is missing. *)
Definition dict_subscript (d : dict V) (key : string) : result V :=
  match dict_get d key with
  | Some v => Ok v
  | None => Raise (KeyError key)
  end.

(** [d[key] = val]: an existing key keeps its position, a new key goes to
    the end. *)
Fixpoint dict_set (d : dict V) (key : string) (val : V) : dict V :=
  match d with
  | [] => [(key, val)]
  | (k, v) :: rest =>
      if String.eqb k key then (k, val) :: rest
      else (k, v) :: dict_set rest key val
  end.

(** [list(d.keys())] *)
Definition keys (d : dict V) : list string := map fst d.

(** [list(d.values())] *)
Definition values (d : dict V) : list V := map snd d.

(** What every Python dict satisfies: no key occurs twice. *)
Definition dict_wf (d : dict V) : Prop := NoDup (keys d).

(** [d1 == d2] on dicts: same keys, same values, whatever the order. *)
Definition dict_eq (d1 d2 : dict V) : Prop :=
  forall key, dict_get d1 key = dict_get d2 key.
End Dict.

Section Comprehension.
Context {A B : Type}.

(** [{key: f(key, val) for key, val in d.items()}] where [f] cannot raise. *)
Definition dict_comp (f : string -> A -> B) (d : dict A) : dict B :=
  fold_left (fun acc kv => dict_set acc (fst kv) (f (fst kv) (snd kv))) d [].

(** The same comprehension when the element expression may raise: the
    first exception ends the loop and nothing is returned. *)
Fixpoint dict_comp_loop (f : string -> A -> result B)
         (items : list (string * A)) (acc : dict B) : result (dict B) :=
  match items with
  | [] => Ok acc
  | (key, val) :: rest =>
      match f key val with
      | Ok b => dict_comp_loop f rest (dict_set acc key b)
      | Raise e => Raise e
      end
  end.

Definition dict_comp_r (f : string -> A -> result B) (d : dict A)
  : result (dict B) :=
  dict_comp_loop f d [].

(** Reference semantics of a comprehension over distinct keys: one entry
    per item, in order. *)
Fixpoint map_items_r (f : string -> A -> result B) (d : dict A)
  : result (dict B) :=
  match d with
  | [] => Ok []
  | (key, val) :: rest =>
      match f key val with
      | Ok b =>
          match map_items_r f rest with
          | Ok r => Ok ((key, b) :: r)
          | Raise e => Raise e
          end
      | Raise e => Raise e
      end
  end.
End Comprehension.

(** ** Numbers *)

(** The operators the source applies to scalars: unary minus, [/], [**] and
    binary [-]; [seqb] is the zero test behind [ZeroDivisionError].
    [spower x n] is [x ** n] for a literal natural exponent: the number type
    decides what it returns and whether it raises (a Python [float] raises
    [OverflowError] when the power is out of range). *)
Class Scalar (Sc : Type) : Type := {
  szero : Sc;
  sone : Sc;
  sadd : Sc -> Sc -> Sc;
  smul : Sc -> Sc -> Sc;
  ssub : Sc -> Sc -> Sc;
  sneg : Sc -> Sc;
  sdiv : Sc -> Sc -> Sc;
  sinv : Sc -> Sc;
  seqb : Sc -> Sc -> bool;
  spower : Sc -> nat -> result Sc
}.

(** The operators the source applies to dictionary values. *)
Class Value (Sc V : Type) : Type := {
  Shape : Type;
  shape : V -> Shape;          (* val.shape *)
  vadd : V -> V -> V;          (* val + dict2[key] *)
  vsub : V -> V -> V;
  vmulr : V -> Sc -> V;        (* val * c *)
  vmull : Sc -> V -> V         (* c * val *)
}.

Section ScalarOps.
Context {Sc : Type} `{Scalar Sc}.

(** The power as a product of [n] factors: what [x ** n] is in exact
    arithmetic. *)
Fixpoint spow (x : Sc) (n : nat) : Sc :=
  match n with
  | O => sone
  | S m => smul x (spow x m)
  end.

(** [a / b] on Python floats. *)
Definition py_div (a b : Sc) : result Sc :=
  if seqb b szero then Raise ZeroDivisionError else Ok (sdiv a b).
End ScalarOps.

(** ** The pure functions of the module *)

Section Pure.
Context {Sc V : Type} `{Scalar Sc} `{Value Sc V}.

(** [dictionary_add], line 65. *)
Definition dictionary_add (dict1 dict2 : dict V) : result (dict V) :=
  dict_comp_r
    (fun key val => let? v2 := dict_subscript dict2 key in Ok (vadd val v2))%result
    dict1.

(** [dictionary_mult], line 82. *)
Definition dictionary_mult (dictionary : dict V) (c : Sc) : dict V :=
  dict_comp (fun _ val => vmulr val c) dictionary.

(** [update_weights], lines 23-24. *)
Definition update_weights (gradient params : dict V) (scale lr : Sc)
  : result (dict V) :=
  (let? delta_W :=
     dict_comp_r
       (fun _ val => let? square := spower scale 2 in
                     let? q := py_div (sneg lr) square in
                     Ok (vmull q val))
       gradient in
   dictionary_add delta_W params)%result.
End Pure.

(** ** External collaborators, the trace and the monad *)

Section Effects.
Context {Sc V : Type} `{Scalar Sc} `{Value Sc V}.
Variables W Inputs : Type.

(** One entry per call that leaves the module. *)
Inductive event : Type :=
| EvSample (sample_shape : Shape)
| EvForward (inputs : Inputs) (params : dict V).

Record state : Type := mkState { world : W; trace : list event }.

Definition M (A : Type) : Type := state -> result A * state.

Definition ret {A : Type} (a : A) : M A := fun st => (Ok a, st).

Definition bind {A B : Type} (m : M A) (k : A -> M B) : M B :=
  fun st =>
    match m st with
    | (Ok a, st') => k a st'
    | (Raise e, st') => (Raise e, st')
    end.

Definition raise {A : Type} (e : exn) : M A := fun st => (Raise e, st).

(** A pure, possibly raising, computation inside [M]. *)
Definition lift {A : Type} (r : result A) : M A := fun st => (r, st).

(** The [Distribution] capability: [sampler.sample(sample_shape=...)]. *)
Record Distribution : Type := mkDistribution {
  sample : Shape -> W -> V * W
}.

(** The [ForwardPass] capability: [forward_pass(inputs, params)]. *)
Definition ForwardPass : Type := Inputs -> dict V -> W -> Sc * W.

Definition call_sample (sampler : Distribution) (sample_shape : Shape) : M V :=
  fun st =>
    let (v, w) := sample sampler sample_shape (world st) in
    (Ok v, mkState w (trace st ++ [EvSample sample_shape])).

Definition call_forward (forward_pass : ForwardPass) (inputs : Inputs)
           (params : dict V) : M Sc :=
  fun st =>
    let (loss, w) := forward_pass inputs params (world st) in
    (Ok loss, mkState w (trace st ++ [EvForward inputs params])).
End Effects.

Arguments EvSample {Sc V _ Inputs} sample_shape.
Arguments EvForward {Sc V _ Inputs} inputs params.
Arguments ret {Sc V _ W Inputs A} a.
Arguments bind {Sc V _ W Inputs A B} m k.
Arguments raise {Sc V _ W Inputs A} e.
Arguments lift {Sc V _ W Inputs A} r.
Arguments call_sample {Sc V _ W} Inputs sampler sample_shape.
Arguments call_forward {Sc V _ W Inputs} forward_pass inputs params.

Declare Scope py_scope.
Delimit Scope py_scope with py.
Notation "x <- c1 ;; c2" := (bind c1 (fun x => c2))
  (at level 100, c1 at next level, right associativity) : py_scope.

(** ** The effectful functions of the module *)

(** The double quote, for the text of the error message. *)
Definition dquote : string := String (ascii_of_nat 34) EmptyString.

(** ['Invalid option given. Choose between: {"ffd", "cfd"}'] *)
Definition invalid_option_msg : string :=
  "Invalid option given. Choose between: {" ++ dquote ++ "ffd" ++ dquote
  ++ ", " ++ dquote ++ "cfd" ++ dquote ++ "}".

Section Estimator.
Context {Sc V : Type} `{Scalar Sc} `{Value Sc V}.
Context {W Inputs : Type}.

(** The loop of [sample_perturbation], lines 45-46, with [h] the dictionary
    built so far. *)
Fixpoint sample_loop (sampler : Distribution W) (items : list (string * V))
         (h : dict V) : M W Inputs (dict V) :=
  match items with
  | [] => ret h
  | (key, val) :: rest =>
      (x <- call_sample Inputs sampler (shape val) ;;
       sample_loop sampler rest (dict_set h key x))%py
  end.

(** [sample_perturbation], lines 44-47. *)
Definition sample_perturbation (sampler : Distribution W) (params : dict V)
  : M W Inputs (dict V) :=
  sample_loop sampler params [].

(** What the loop draws, without the dictionary bookkeeping: one sample per
    item, in order, each of the shape of the item's value, the sampler's
    world threaded from one call to the next. *)
Fixpoint draws (sampler : Distribution W) (items : list (string * V)) (w : W)
  : dict V * W :=
  match items with
  | [] => ([], w)
  | (key, val) :: rest =>
      let (x, w1) := sample sampler (shape val) w in
      let (r, w2) := draws sampler rest w1 in
      ((key, x) :: r, w2)
  end.

(** [compute_gradient], lines 118-138. *)
Definition compute_gradient (forward_pass : ForwardPass W Inputs)
           (inputs : Inputs) (params : dict V) (sampler : Distribution W)
           (method : string) : M W Inputs (dict V) :=
  (h <- sample_perturbation sampler params ;;
   if String.eqb method "ffd" then
     clean_loss <- call_forward forward_pass inputs params ;;
     perturbed <- lift (dictionary_add params h) ;;
     perturbed_loss <- call_forward forward_pass inputs perturbed ;;
     ret (dictionary_mult h (ssub perturbed_loss clean_loss))
   else if String.eqb method "cfd" then
     perturbed <- lift (dictionary_add params h) ;;
     perturbed_loss <- call_forward forward_pass inputs perturbed ;;
     neg_perturbed <- lift (dictionary_add params
                              (dictionary_mult h (sneg sone))) ;;
     neg_perturbed_loss <- call_forward forward_pass inputs neg_perturbed ;;
     ret (dictionary_mult h (ssub perturbed_loss neg_perturbed_loss))
   else
     raise (ValueError invalid_option_msg))%py.

(** [compute_gradient_vector], lines 174-194. *)
Definition compute_gradient_vector (forward_pass : ForwardPass W Inputs)
           (inputs : Inputs) (params : dict V) (sampler : Distribution W)
           (method : string) : M W Inputs (dict V) :=
  (h <- sample_perturbation sampler params ;;
   if String.eqb method "ffd" then
     clean_loss <- call_forward forward_pass inputs params ;;
     perturbed <- lift (dictionary_add params h) ;;
     perturbed_loss <- call_forward forward_pass inputs perturbed ;;
     ret (dictionary_mult h (ssub perturbed_loss clean_loss))
   else if String.eqb method "cfd" then
     perturbed <- lift (dictionary_add params h) ;;
     perturbed_loss <- call_forward forward_pass inputs perturbed ;;
     neg_perturbed <- lift (dictionary_add params
                              (dictionary_mult h (sneg sone))) ;;
     neg_perturbed_loss <- call_forward forward_pass inputs neg_perturbed ;;
     ret (dictionary_mult h (ssub perturbed_loss neg_perturbed_loss))
   else
     raise (ValueError invalid_option_msg))%py.
End Estimator.

(** ** Laws of exact arithmetic *)

(** Scalars form a field, the zero test decides equality, and the power
    never raises and is the product. *)
Class ScalarLaws (Sc : Type) `{Scalar Sc} : Prop := {
  scalar_field : field_theory szero sone sadd smul ssub sneg sdiv sinv eq;
  seqb_eq : forall a b : Sc, seqb a b = true <-> a = b;
  spower_exact : forall (x : Sc) (n : nat), spower x n = Ok (spow x n)
}.

(** Values form a module over the scalars; these are the module laws the
    update rule needs ([vmull szero a] is the zero of the module). *)
Class ValueLaws (Sc V : Type) `{Scalar Sc} `{Value Sc V} : Prop := {
  vadd_comm : forall a b : V, vadd a b = vadd b a;
  vadd_0_l : forall a b : V, vadd (vmull szero a) b = b;
  vmull_vmull : forall (c d : Sc) (a : V),
      vmull c (vmull d a) = vmull (smul c d) a;
  vmulr_vmull : forall (a : V) (c : Sc), vmulr a c = vmull c a;
  vsub_def : forall a b : V, vsub a b = vadd a (vmull (sneg sone) b)
}.

(** Elementwise combination of two arrays. *)
Fixpoint zip_with {A : Type} (f : A -> A -> A) (xs ys : list A) : list A :=
  match xs, ys with
  | x :: xs', y :: ys' => f x y :: zip_with f xs' ys'
  | _, _ => []
  end.

(** ** Binary64: the numbers Python computes with

    [float] is IEEE 754 binary64, the type of a Python [float]; the
    operators are the correctly rounded ones.  [x ** n] is taken as the
    product of [n] factors, [OverflowError] when a finite [x] gives an
    infinite power.  (The C function behind [**] may differ from the rounded
    product in the last digit; it does not on the values used in this file:
    a power that is one, that underflows to zero or that overflows.) *)

Fixpoint float_product (x : float) (n : nat) : float :=
  match n with
  | O => 1%float
  | S m => PrimFloat.mul x (float_product x m)
  end.

Definition float_pow (x : float) (n : nat) : result float :=
  let r := float_product x n in
  if andb (PrimFloat.is_infinity r) (negb (PrimFloat.is_infinity x))
  then Raise OverflowError
  else Ok r.

#[export] Instance float_Scalar : Scalar float := {|
  szero := 0%float;
  sone := 1%float;
  sadd := PrimFloat.add;
  smul := PrimFloat.mul;
  ssub := PrimFloat.sub;
  sneg := PrimFloat.opp;
  sdiv := PrimFloat.div;
  sinv := fun x => PrimFloat.div 1%float x;
  seqb := PrimFloat.eqb;
  spower := float_pow
|}.

#[export] Instance float_Value : Value float float := {|
  Shape := unit;
  shape := fun _ => tt;
  vadd := PrimFloat.add;
  vsub := PrimFloat.sub;
  vmulr := PrimFloat.mul;
  vmull := PrimFloat.mul
|}.

#[export] Instance floatVec_Value : Value float (list float) := {|
  Shape := nat;
  shape := @List.length float;
  vadd := zip_with PrimFloat.add;
  vsub := zip_with PrimFloat.sub;
  vmulr := fun v c => map (fun x => PrimFloat.mul x c) v;
  vmull := fun c v => map (fun x => PrimFloat.mul c x) v
|}.

Definition ones_sampler64 {W : Type}
  : @Distribution float (list float) floatVec_Value W :=
  @mkDistribution float (list float) floatVec_Value W
    (fun (n : nat) (w : W) => (repeat 1%float n, w)).

(** ** Exact rationals: the instances on which the functions are run *)

#[export] Instance Qc_Scalar : Scalar Qc := {|
  szero := 0%Qc;
  sone := 1%Qc;
  sadd := Qcplus;
  smul := Qcmult;
  ssub := Qcminus;
  sneg := Qcopp;
  sdiv := Qcdiv;
  sinv := Qcinv;
  seqb := Qc_eq_bool;
  spower := fun x n => Ok (Qcpower x n)
|}.

(** Weights that are plain numbers, as in [{"w": 2.0}]: the shape is [()]. *)
#[export] Instance Qc_Value : Value Qc Qc := {|
  Shape := unit;
  shape := fun _ => tt;
  vadd := Qcplus;
  vsub := Qcminus;
  vmulr := Qcmult;
  vmull := Qcmult
|}.

(** Weights that are one-dimensional arrays; the shape is the length.  The
    estimator only ever adds arrays of equal length. *)
#[export] Instance QcVec_Value : Value Qc (list Qc) := {|
  Shape := nat;
  shape := @List.length Qc;
  vadd := zip_with Qcplus;
  vsub := zip_with Qcminus;
  vmulr := fun v c => map (fun x => Qcmult x c) v;
  vmull := fun c v => map (fun x => Qcmult c x) v
|}.

(** A deterministic [Distribution] that always returns all-ones arrays of the
    requested shape. *)
Definition ones_sampler {W : Type} : @Distribution Qc (list Qc) QcVec_Value W :=
  @mkDistribution Qc (list Qc) QcVec_Value W
    (fun (n : nat) (w : W) => (repeat 1%Qc n, w)).

(** The all-ones [Distribution] for weights that are plain numbers. *)
Definition one_sampler {W : Type} : @Distribution Qc Qc Qc_Value W :=
  @mkDistribution Qc Qc Qc_Value W (fun (_ : unit) (w : W) => (1%Qc, w)).

(** A [Distribution] whose world is the number of samples drawn so far. *)
Definition counting_sampler : @Distribution Qc (list Qc) QcVec_Value nat :=
  @mkDistribution Qc (list Qc) QcVec_Value nat
    (fun (n : nat) (drawn : nat) => (repeat 1%Qc n, S drawn)).

(** A call-counting [ForwardPass] stub: the world is the number of calls made
    so far; the first call returns [first], every later one [later]. *)
Definition stub_forward_pass {Sc V : Type} (first later : Sc)
  : ForwardPass (Sc := Sc) (V := V) nat unit :=
  fun _ _ calls => (if Nat.eqb calls 0 then first else later, S calls).

(** Number of forward-pass evaluations recorded in a trace. *)
Definition is_forward {Sc V : Type} `{Value Sc V} {Inputs : Type}
           (e : event Inputs) : bool :=
  match e with
  | EvForward _ _ => true
  | EvSample _ => false
  end.

Definition forward_calls {Sc V : Type} `{Value Sc V} {Inputs : Type}
           (tr : list (event Inputs)) : list (event Inputs) :=
  filter is_forward tr.

Definition sample_calls {Sc V : Type} `{Value Sc V} {Inputs : Type}
           (tr : list (event Inputs)) : list (event Inputs) :=
  filter (fun e => negb (is_forward e)) tr.

(** The [EvSample] entries one run of [sample_perturbation] leaves: one per
    item of [params], carrying the shape of the item's value. *)
Definition sample_events {Sc V : Type} `{Value Sc V} {Inputs : Type}
           (params : dict V) : list (event Inputs) :=
  map (fun val => EvSample (shape val)) (values params).

(** Whether [needle] occurs in [text]. *)
Definition contains (needle text : string) : bool :=
  match String.index 0 needle text with
  | Some _ => true
  | None => false
  end.

(** ** [compute_snn_gradient]: the perturbation is applied inside the
    forward pass

    Here [forward_pass] is called with two positional arguments,
    [forward_pass(inputs, y)], or with three, [forward_pass(inputs, y, h)]:
    the optional third argument is an [option]. *)

Section Snn.
Context {Sc V : Type} `{Scalar Sc} `{Value Sc V}.
Variables W Inputs Targets : Type.

(** One entry per call that leaves [compute_snn_gradient]. *)
Inductive snn_event : Type :=
| SnnSample (sample_shape : Shape)
| SnnForward (inputs : Inputs) (y : Targets) (perturbation : option (dict V)).

Record snn_state : Type :=
  mkSnnState { snn_world : W; snn_trace : list snn_event }.

Definition SnnM (A : Type) : Type := snn_state -> result A * snn_state.

Definition snn_ret {A : Type} (a : A) : SnnM A := fun st => (Ok a, st).

Definition snn_bind {A B : Type} (m : SnnM A) (k : A -> SnnM B) : SnnM B :=
  fun st =>
    match m st with
    | (Ok a, st') => k a st'
    | (Raise e, st') => (Raise e, st')
    end.

Definition snn_raise {A : Type} (e : exn) : SnnM A :=
  fun st => (Raise e, st).

(** The [ForwardPass] capability of the spiking variant. *)
Definition SnnForwardPass : Type :=
  Inputs -> Targets -> option (dict V) -> W -> Sc * W.

Definition snn_call_forward (forward_pass : SnnForwardPass) (inputs : Inputs)
           (y : Targets) (perturbation : option (dict V)) : SnnM Sc :=
  fun st =>
    let (loss, w) := forward_pass inputs y perturbation (snn_world st) in
    (Ok loss,
     mkSnnState w (snn_trace st ++ [SnnForward inputs y perturbation])).

(** An entry of the trace of [M] as an entry of this trace. *)
Definition snn_event_of (e : event (Inputs * Targets)) : snn_event :=
  match e with
  | EvSample sample_shape => SnnSample sample_shape
  | EvForward (inputs, y) params => SnnForward inputs y (Some params)
  end.

(** A computation of [M] run from here: same world, its calls appended. *)
Definition from_M {A : Type} (m : M W (Inputs * Targets) A) : SnnM A :=
  fun st =>
    let (r, st') := m (mkState (snn_world st) []) in
    (r, mkSnnState (world st')
                   (snn_trace st ++ map snn_event_of (trace st'))).
End Snn.

Arguments SnnSample {Sc V _ Inputs Targets} sample_shape.
Arguments SnnForward {Sc V _ Inputs Targets} inputs y perturbation.
Arguments snn_ret {Sc V _ W Inputs Targets A} a.
Arguments snn_bind {Sc V _ W Inputs Targets A B} m k.
Arguments snn_raise {Sc V _ W Inputs Targets A} e.
Arguments snn_call_forward {Sc V _ W Inputs Targets}
  forward_pass inputs y perturbation.
Arguments from_M {Sc V _ W Inputs Targets A} m.

Declare Scope snn_scope.
Delimit Scope snn_scope with snn.
Notation "x <- c1 ;; c2" := (snn_bind c1 (fun x => c2))
  (at level 100, c1 at next level, right associativity) : snn_scope.

Section SnnEstimator.
Context {Sc V : Type} `{Scalar Sc} `{Value Sc V}.
Context {W Inputs Targets : Type}.

(** [compute_snn_gradient], lines 232-249. *)
Definition compute_snn_gradient
           (forward_pass : SnnForwardPass (Sc := Sc) (V := V) W Inputs Targets)
           (inputs : Inputs) (y : Targets) (params : dict V)
           (sampler : Distribution W) (method : string)
  : SnnM W Inputs Targets (dict V) :=
  (h <- from_M (sample_perturbation sampler params) ;;
   if String.eqb method "ffd" then
     clean_loss <- snn_call_forward forward_pass inputs y None ;;
     perturbed_loss <- snn_call_forward forward_pass inputs y (Some h) ;;
     snn_ret (dictionary_mult h (ssub perturbed_loss clean_loss))
   else if String.eqb method "cfd" then
     perturbed_loss <- snn_call_forward forward_pass inputs y (Some h) ;;
     neg_perturbed_loss <-
       snn_call_forward forward_pass inputs y
                        (Some (dictionary_mult h (sneg sone))) ;;
     snn_ret (dictionary_mult h (ssub perturbed_loss neg_perturbed_loss))
   else
     snn_raise (ValueError invalid_option_msg))%snn.

(** The [SnnSample] entries one run of [sample_perturbation] leaves. *)
Definition snn_sample_events (params : dict V)
  : list (snn_event (V := V) Inputs Targets) :=
  map (fun val => SnnSample (shape val)) (values params).

(** A plain forward pass seen as one that applies the perturbation itself:
    without a perturbation it evaluates at [params], with one at
    [dictionary_add params perturbation]. *)
Definition perturbing_forward_pass (forward_pass : ForwardPass W Inputs)
           (params : dict V)
  : SnnForwardPass (Sc := Sc) (V := V) W Inputs Targets :=
  fun inputs _ perturbation w =>
    match perturbation with
    | None => forward_pass inputs params w
    | Some p =>
        match dictionary_add params p with
        | Ok perturbed => forward_pass inputs perturbed w
        | Raise _ => (szero, w)
        end
    end.
End SnnEstimator.

(** ** Layouts and further laws *)

(** The keys of a dictionary, in order, each with the shape of its value:
    all that sampling looks at. *)
Definition layout {Sc V : Type} `{Value Sc V} (d : dict V)
  : list (string * Shape) :=
  map (fun kv => (fst kv, shape (snd kv))) d.

(** The first key of [d], in iteration order, that [other] does not have. *)
Fixpoint first_missing {A B : Type} (d : dict A) (other : dict B)
  : option string :=
  match d with
  | [] => None
  | (key, _) :: rest =>
      match dict_get other key with
      | Some _ => first_missing rest other
      | None => Some key
      end
  end.

(** The module laws for values that come in several shapes: the laws of the
    sum and of the scalar multiplication are those of a module over the
    scalars; [vmull szero a] is the zero of the shape of [a], so adding it
    changes nothing in a value of that shape.  One-dimensional arrays of
    every length together satisfy them. *)
Class ShapedLaws (Sc V : Type) `{Scalar Sc} `{Value Sc V} : Prop := {
  shaped_vadd_comm : forall a b : V, vadd a b = vadd b a;
  shaped_vadd_assoc : forall a b c : V, vadd a (vadd b c) = vadd (vadd a b) c;
  shaped_vadd_0_l : forall a b : V,
      shape a = shape b -> vadd (vmull szero a) b = b;
  shaped_vmull_1_l : forall a : V, vmull sone a = a;
  shaped_vmull_vmull : forall (c d : Sc) (a : V),
      vmull c (vmull d a) = vmull (smul c d) a;
  shaped_vmull_sadd : forall (c d : Sc) (a : V),
      vmull (sadd c d) a = vadd (vmull c a) (vmull d a);
  shaped_vmulr_vmull : forall (a : V) (c : Sc), vmulr a c = vmull c a;
  shaped_vsub_def : forall a b : V, vsub a b = vadd a (vmull (sneg sone) b)
}.

(** A sampler that returns values of the shape it is asked for. *)
Definition returns_requested_shape {Sc V : Type} `{Value Sc V} {W : Type}
           (sampler : Distribution W) : Prop :=
  forall (sample_shape : Shape) (w : W),
    shape (fst (sample sampler sample_shape w)) = sample_shape.

(** * Properties *)

Open Scope list_scope.

(** ** Dictionaries *)

Section DictFacts.
Context {V : Type}.
Implicit Types (d : dict V) (key : string) (v : V).

Lemma dict_get_None d key : dict_get d key = None <-> ~ In key (keys d).
Proof.
  induction d as [|[k v] d IH]; simpl.
  - tauto.
  - destruct (String.eqb_spec k key) as [->|Hne].
    + split; [discriminate | intros Hn; exfalso; apply Hn; now left].
    + rewrite IH. split; intros Hn; [intros [He|Hi]; congruence | tauto].
Qed.

Lemma dict_get_Some_In d key v : dict_get d key = Some v -> In key (keys d).
Proof.
  intros Hget. destruct (in_dec string_dec key (keys d)) as [Hin|Hnin]; auto.
  apply dict_get_None in Hnin. congruence.
Qed.

Lemma dict_get_In d key : In key (keys d) -> exists v, dict_get d key = Some v.
Proof.
  intros Hin. destruct (dict_get d key) as [v|] eqn:Hget; eauto.
  apply dict_get_None in Hget. contradiction.
Qed.

Lemma dict_set_fresh d key v :
  ~ In key (keys d) -> dict_set d key v = d ++ [(key, v)].
Proof.
  induction d as [|[k w] d IH]; simpl; intros Hn; auto.
  destruct (String.eqb_spec k key) as [->|Hne].
  - exfalso; apply Hn; now left.
  - rewrite IH; auto.
Qed.

Lemma keys_app d1 d2 : keys (d1 ++ d2) = keys d1 ++ keys d2.
Proof. unfold keys. apply map_app. Qed.

Lemma fresh_snoc (acc : dict V) (rest : list string) key v :
  ~ In key rest ->
  (forall k, In k (key :: rest) -> ~ In k (keys acc)) ->
  forall k, In k rest -> ~ In k (keys (acc ++ [(key, v)])).
Proof.
  intros Hkey Hacc k Hk. rewrite keys_app, in_app_iff. simpl.
  intros [Hin|[<-|[]]].
  - apply (Hacc k); [now right | assumption].
  - contradiction.
Qed.
End DictFacts.

(** ** Comprehensions over distinct keys *)

Section ComprehensionFacts.
Context {A B : Type}.

Lemma dict_comp_loop_fresh (f : string -> A -> result B) items :
  forall acc,
    NoDup (keys items) ->
    (forall k, In k (keys items) -> ~ In k (keys acc)) ->
    dict_comp_loop f items acc
    = rbind (map_items_r f items) (fun r => Ok (acc ++ r)).
Proof.
  induction items as [|[key val] rest IH]; intros acc Hnd Hacc; simpl.
  - now rewrite app_nil_r.
  - inversion Hnd as [|? ? Hkey Hrest]; subst.
    destruct (f key val) as [b|e]; simpl; auto.
    rewrite dict_set_fresh by (apply Hacc; now left).
    rewrite IH; [| assumption | now apply fresh_snoc].
    destruct (map_items_r f rest); simpl; auto.
    now rewrite <- app_assoc.
Qed.

Lemma dict_comp_r_wf (f : string -> A -> result B) (d : dict A) :
  dict_wf d -> dict_comp_r f d = map_items_r f d.
Proof.
  intros Hwf. unfold dict_comp_r.
  rewrite dict_comp_loop_fresh; auto.
  destruct (map_items_r f d); reflexivity.
Qed.

Lemma dict_comp_fold_fresh (f : string -> A -> B) items :
  forall acc,
    NoDup (keys items) ->
    (forall k, In k (keys items) -> ~ In k (keys acc)) ->
    fold_left (fun acc kv => dict_set acc (fst kv) (f (fst kv) (snd kv)))
              items acc
    = acc ++ map (fun kv => (fst kv, f (fst kv) (snd kv))) items.
Proof.
  induction items as [|[key val] rest IH]; intros acc Hnd Hacc; simpl.
  - now rewrite app_nil_r.
  - inversion Hnd as [|? ? Hkey Hrest]; subst.
    rewrite dict_set_fresh by (apply Hacc; now left).
    rewrite IH; [| assumption | now apply fresh_snoc].
    now rewrite <- app_assoc.
Qed.

Lemma dict_comp_wf (f : string -> A -> B) (d : dict A) :
  dict_wf d ->
  dict_comp f d = map (fun kv => (fst kv, f (fst kv) (snd kv))) d.
Proof.
  intros Hwf. unfold dict_comp. now rewrite dict_comp_fold_fresh.
Qed.

Lemma keys_map_items (f : string -> A -> B) (d : dict A) :
  keys (map (fun kv => (fst kv, f (fst kv) (snd kv))) d) = keys d.
Proof.
  unfold keys. rewrite map_map. now apply map_ext.
Qed.

Lemma dict_get_map_items (f : string -> A -> B) (d : dict A) key :
  dict_get (map (fun kv => (fst kv, f (fst kv) (snd kv))) d) key
  = option_map (f key) (dict_get d key).
Proof.
  induction d as [|[k a] d IH]; simpl; auto.
  destruct (String.eqb_spec k key) as [->|Hne]; auto.
Qed.

Lemma map_items_r_keys (f : string -> A -> result B) (d : dict A) :
  forall r, map_items_r f d = Ok r -> keys r = keys d.
Proof.
  induction d as [|[key val] rest IH]; simpl; intros r Hr.
  - now inversion Hr.
  - destruct (f key val) as [b|e]; try discriminate.
    destruct (map_items_r f rest) as [r'|e]; try discriminate.
    inversion Hr; subst. simpl. f_equal. now apply IH.
Qed.

Lemma map_items_r_get (f : string -> A -> result B) (d : dict A) :
  forall r, map_items_r f d = Ok r ->
  forall key a, dict_get d key = Some a ->
  exists b, f key a = Ok b /\ dict_get r key = Some b.
Proof.
  induction d as [|[k val] rest IH]; simpl; intros r Hr key a Hget.
  - discriminate.
  - destruct (f k val) as [b|e] eqn:Hf; try discriminate.
    destruct (map_items_r f rest) as [r'|e]; try discriminate.
    inversion Hr; subst. simpl.
    destruct (String.eqb_spec k key) as [->|Hne].
    + inversion Hget; subst. eauto.
    + now apply IH.
Qed.

Lemma map_items_r_ok (f : string -> A -> result B) (d : dict A) :
  (forall key a, In (key, a) d -> exists b, f key a = Ok b) ->
  exists r, map_items_r f d = Ok r.
Proof.
  induction d as [|[key val] rest IH]; simpl; intros Hall.
  - eauto.
  - destruct (Hall key val) as [b ->]; auto.
    destruct IH as [r ->]; eauto.
Qed.

Lemma map_items_r_raise (f : string -> A -> result B) (d : dict A) :
  forall e, map_items_r f d = Raise e ->
  exists key a, In (key, a) d /\ f key a = Raise e.
Proof.
  induction d as [|[key val] rest IH]; simpl; intros e He.
  - discriminate.
  - destruct (f key val) as [b|e'] eqn:Hf.
    + destruct (map_items_r f rest) as [r|e'']; try discriminate.
      inversion He; subst.
      destruct (IH e eq_refl) as (k & a & Hin & Hk). eauto.
    + inversion He; subst. eauto.
Qed.
End ComprehensionFacts.

Section ComprehensionMore.
Context {A B : Type}.

Lemma map_items_r_ok_inv (f : string -> A -> result B) (d : dict A) :
  forall r, map_items_r f d = Ok r ->
  forall key a, In (key, a) d -> exists b, f key a = Ok b.
Proof.
  induction d as [|[k val] rest IH]; simpl; intros r Hr key a Hin.
  - contradiction.
  - destruct (f k val) as [b|e] eqn:Hf; try discriminate.
    destruct (map_items_r f rest) as [r'|e]; try discriminate.
    destruct Hin as [Heq|Hin].
    + inversion Heq; subst. eauto.
    + eapply IH; eauto.
Qed.

Lemma map_items_r_total (g : string -> A -> B) (d : dict A) :
  map_items_r (fun key a => Ok (g key a)) d
  = Ok (map (fun kv => (fst kv, g (fst kv) (snd kv))) d).
Proof.
  induction d as [|[k val] rest IH]; simpl; auto.
  now rewrite IH.
Qed.

Lemma In_items_get (d : dict A) key a :
  dict_wf d -> In (key, a) d -> dict_get d key = Some a.
Proof.
  unfold dict_wf. induction d as [|[k val] rest IH]; simpl; intros Hwf Hin.
  - contradiction.
  - inversion Hwf as [|? ? Hk Hrest]; subst.
    destruct Hin as [Heq|Hin].
    + inversion Heq; subst. now rewrite String.eqb_refl.
    + destruct (String.eqb_spec k key) as [->|Hne]; auto.
      exfalso. apply Hk. change (In (fst (key, a)) (map fst rest)).
      now apply in_map.
Qed.

Lemma get_In_items (d : dict A) key a :
  dict_get d key = Some a -> In (key, a) d.
Proof.
  induction d as [|[k val] rest IH]; simpl; intros Hget.
  - discriminate.
  - destruct (String.eqb_spec k key) as [->|Hne].
    + inversion Hget; subst. now left.
    + right. auto.
Qed.
End ComprehensionMore.

(** ** Dictionary arithmetic *)

Section PureFacts.
Context {Sc V : Type} `{Scalar Sc} `{Value Sc V}.

Lemma dictionary_mult_wf (d : dict V) (c : Sc) :
  dict_wf d ->
  dictionary_mult d c = map (fun kv => (fst kv, vmulr (snd kv) c)) d.
Proof. intros Hwf. unfold dictionary_mult. now rewrite dict_comp_wf. Qed.

Lemma dictionary_mult_keys (d : dict V) (c : Sc) :
  dict_wf d -> keys (dictionary_mult d c) = keys d.
Proof.
  intros Hwf. rewrite dictionary_mult_wf by assumption.
  apply (keys_map_items (fun _ v => vmulr v c)).
Qed.

Lemma dictionary_mult_get (d : dict V) (c : Sc) key :
  dict_wf d ->
  dict_get (dictionary_mult d c) key
  = option_map (fun v => vmulr v c) (dict_get d key).
Proof.
  intros Hwf. rewrite dictionary_mult_wf by assumption.
  apply (dict_get_map_items (fun _ v => vmulr v c)).
Qed.

Lemma dictionary_add_ok (dict1 dict2 : dict V) :
  dict_wf dict1 ->
  incl (keys dict1) (keys dict2) ->
  exists sum,
    dictionary_add dict1 dict2 = Ok sum
    /\ keys sum = keys dict1
    /\ forall key a, dict_get dict1 key = Some a ->
         exists b, dict_get dict2 key = Some b
                   /\ dict_get sum key = Some (vadd a b).
Proof.
  intros Hwf Hincl. unfold dictionary_add. rewrite dict_comp_r_wf by assumption.
  set (f := fun key val => rbind (dict_subscript dict2 key)
                                 (fun v2 => Ok (vadd val v2))).
  destruct (map_items_r_ok f dict1) as [sum Hsum].
  { intros key a Hin. unfold f, dict_subscript.
    destruct (dict_get_In dict2 key) as [b ->]; simpl; eauto.
    apply Hincl. change (In (fst (key, a)) (map fst dict1)). now apply in_map. }
  exists sum. split; [assumption|]. split.
  - eapply map_items_r_keys; eauto.
  - intros key a Hget.
    destruct (map_items_r_get f dict1 Hsum key Hget) as (s & Hf & Hs).
    unfold f, dict_subscript in Hf.
    destruct (dict_get dict2 key) as [b|]; simpl in Hf; try discriminate.
    inversion Hf; subst. eauto.
Qed.

Lemma dictionary_add_ok_inv (dict1 dict2 sum : dict V) :
  dict_wf dict1 ->
  dictionary_add dict1 dict2 = Ok sum ->
  incl (keys dict1) (keys dict2).
Proof.
  intros Hwf. unfold dictionary_add. rewrite dict_comp_r_wf by assumption.
  intros Hsum key Hin.
  destruct (dict_get_In dict1 key Hin) as [a Ha].
  destruct (map_items_r_ok_inv _ dict1 Hsum key a (get_In_items _ _ Ha))
    as [s Hs].
  unfold dict_subscript in Hs.
  destruct (dict_get dict2 key) as [b|] eqn:Hb; simpl in Hs; try discriminate.
  eapply dict_get_Some_In; eauto.
Qed.

Lemma dictionary_add_raise (dict1 dict2 : dict V) (e : exn) :
  dict_wf dict1 ->
  dictionary_add dict1 dict2 = Raise e ->
  exists key, e = KeyError key /\ In key (keys dict1) /\ ~ In key (keys dict2).
Proof.
  intros Hwf. unfold dictionary_add. rewrite dict_comp_r_wf by assumption.
  intros Hr. destruct (map_items_r_raise _ dict1 Hr) as (key & a & Hin & Hf).
  unfold dict_subscript in Hf.
  destruct (dict_get dict2 key) as [b|] eqn:Hb; simpl in Hf; try discriminate.
  inversion Hf; subst. exists key. split; [reflexivity|]. split.
  - change (In (fst (key, a)) (map fst dict1)). now apply in_map.
  - now apply dict_get_None.
Qed.

Lemma dictionary_add_keys (dict1 dict2 sum : dict V) :
  dict_wf dict1 ->
  dictionary_add dict1 dict2 = Ok sum -> keys sum = keys dict1.
Proof.
  intros Hwf. unfold dictionary_add. rewrite dict_comp_r_wf by assumption.
  apply map_items_r_keys.
Qed.
End PureFacts.

(** ** The sampling loop *)

Section EstimatorFacts.
Context {Sc V : Type} `{Scalar Sc} `{Value Sc V}.
Context {W Inputs : Type}.
Implicit Types (sampler : Distribution W) (st : state W Inputs).

Lemma draws_keys sampler items :
  forall w, keys (fst (draws sampler items w)) = keys items.
Proof.
  induction items as [|[key val] rest IH]; intros w; simpl; auto.
  destruct (sample sampler (shape val) w) as [x w1].
  specialize (IH w1). destruct (draws sampler rest w1) as [r w2].
  simpl in *. now f_equal.
Qed.

Lemma sample_loop_state sampler items :
  forall h st,
  exists h',
    sample_loop (Inputs := Inputs) sampler items h st
    = (Ok h',
       mkState (snd (draws sampler items (world st)))
               (trace st ++ sample_events items)).
Proof.
  induction items as [|[key val] rest IH]; intros h st; simpl.
  - exists h. unfold ret, sample_events. simpl. rewrite app_nil_r.
    now destruct st.
  - unfold bind, call_sample.
    destruct (sample sampler (shape val) (world st)) as [x w1].
    destruct (IH (dict_set h key x)
                 (mkState w1 (trace st ++ [EvSample (shape val)])))
      as [h' Hh'].
    exists h'. rewrite Hh'. simpl.
    destruct (draws sampler rest w1) as [r w2]. simpl.
    unfold sample_events. simpl. now rewrite <- app_assoc.
Qed.

Lemma sample_loop_fresh sampler items :
  forall h st,
    NoDup (keys items) ->
    (forall k, In k (keys items) -> ~ In k (keys h)) ->
    sample_loop (Inputs := Inputs) sampler items h st
    = (Ok (h ++ fst (draws sampler items (world st))),
       mkState (snd (draws sampler items (world st)))
               (trace st ++ sample_events items)).
Proof.
  induction items as [|[key val] rest IH]; intros h st Hnd Hh; simpl.
  - unfold ret, sample_events. simpl. rewrite !app_nil_r. now destruct st.
  - inversion Hnd as [|? ? Hkey Hrest]; subst.
    unfold bind, call_sample.
    destruct (sample sampler (shape val) (world st)) as [x w1].
    rewrite dict_set_fresh by (apply Hh; now left).
    rewrite IH; [| assumption | now apply fresh_snoc]. simpl.
    destruct (draws sampler rest w1) as [r w2]. simpl.
    unfold sample_events. simpl. now rewrite <- !app_assoc.
Qed.

Lemma sample_perturbation_wf sampler params st :
  dict_wf params ->
  sample_perturbation sampler params st
  = (Ok (fst (draws sampler params (world st))),
     mkState (snd (draws sampler params (world st)))
             (trace st ++ sample_events params)).
Proof.
  intros Hwf. unfold sample_perturbation.
  rewrite sample_loop_fresh; auto.
Qed.

Lemma forward_calls_app (tr1 tr2 : list (event Inputs)) :
  forward_calls (tr1 ++ tr2) = forward_calls tr1 ++ forward_calls tr2.
Proof. apply filter_app. Qed.

Lemma sample_calls_app (tr1 tr2 : list (event Inputs)) :
  sample_calls (tr1 ++ tr2) = sample_calls tr1 ++ sample_calls tr2.
Proof. apply filter_app. Qed.

Lemma forward_calls_sample_events (params : dict V) :
  forward_calls (sample_events params : list (event Inputs)) = [].
Proof.
  unfold sample_events, values.
  induction params as [|[key val] rest IH]; simpl; auto.
Qed.

Lemma sample_calls_sample_events (params : dict V) :
  sample_calls (sample_events params : list (event Inputs))
  = sample_events params.
Proof.
  unfold sample_events, values.
  induction params as [|[key val] rest IH]; simpl; auto.
  now f_equal.
Qed.

Lemma sample_events_length (params : dict V) :
  List.length (sample_events params : list (event Inputs))
  = List.length (keys params).
Proof. unfold sample_events, values, keys. now rewrite !length_map. Qed.
End EstimatorFacts.

(** ** One run of the estimator *)

Section GradientFacts.
Context {Sc V : Type} `{Scalar Sc} `{Value Sc V}.
Context {W Inputs : Type}.
Implicit Types (sampler : Distribution W) (st : state W Inputs).
Implicit Types (forward_pass : ForwardPass (Sc := Sc) (V := V) W Inputs).

Lemma draws_wf sampler params w :
  dict_wf params -> dict_wf (fst (draws sampler params w)).
Proof. unfold dict_wf. now rewrite draws_keys. Qed.

Lemma compute_gradient_ffd_run forward_pass inputs params sampler st
      h w0 perturbed clean_loss w1 perturbed_loss w2 :
  dict_wf params ->
  draws sampler params (world st) = (h, w0) ->
  dictionary_add params h = Ok perturbed ->
  forward_pass inputs params w0 = (clean_loss, w1) ->
  forward_pass inputs perturbed w1 = (perturbed_loss, w2) ->
  compute_gradient forward_pass inputs params sampler "ffd" st
  = (Ok (dictionary_mult h (ssub perturbed_loss clean_loss)),
     mkState w2 (trace st ++ sample_events params
                 ++ [EvForward inputs params; EvForward inputs perturbed])).
Proof.
  intros Hwf Hd Hadd Hc Hp. unfold compute_gradient, bind.
  rewrite sample_perturbation_wf by assumption. rewrite Hd. simpl.
  unfold call_forward, lift, ret. simpl. rewrite Hc, Hadd. simpl. rewrite Hp.
  now rewrite <- !app_assoc.
Qed.

Lemma compute_gradient_cfd_run forward_pass inputs params sampler st
      h w0 perturbed perturbed_loss w1 neg_perturbed neg_perturbed_loss w2 :
  dict_wf params ->
  draws sampler params (world st) = (h, w0) ->
  dictionary_add params h = Ok perturbed ->
  forward_pass inputs perturbed w0 = (perturbed_loss, w1) ->
  dictionary_add params (dictionary_mult h (sneg sone)) = Ok neg_perturbed ->
  forward_pass inputs neg_perturbed w1 = (neg_perturbed_loss, w2) ->
  compute_gradient forward_pass inputs params sampler "cfd" st
  = (Ok (dictionary_mult h (ssub perturbed_loss neg_perturbed_loss)),
     mkState w2 (trace st ++ sample_events params
                 ++ [EvForward inputs perturbed;
                     EvForward inputs neg_perturbed])).
Proof.
  intros Hwf Hd Hadd Hp Hneg Hn. unfold compute_gradient, bind.
  rewrite sample_perturbation_wf by assumption. rewrite Hd. simpl.
  unfold call_forward, lift, ret. simpl. rewrite Hadd. simpl. rewrite Hp.
  simpl. rewrite Hneg. simpl. rewrite Hn.
  now rewrite <- !app_assoc.
Qed.

Lemma compute_gradient_invalid_run forward_pass inputs params sampler st method :
  method <> "ffd" -> method <> "cfd" ->
  compute_gradient forward_pass inputs params sampler method st
  = (Raise (ValueError invalid_option_msg),
     mkState (snd (draws sampler params (world st)))
             (trace st ++ sample_events params)).
Proof.
  intros Hf Hc. unfold compute_gradient, bind, sample_perturbation.
  destruct (sample_loop_state sampler params [] st) as [h ->].
  apply String.eqb_neq in Hf, Hc. now rewrite Hf, Hc.
Qed.

(** [params + other] is defined whenever [other] has the keys of [params]. *)
Lemma dictionary_add_same_keys (params other : dict V) :
  dict_wf params ->
  keys other = keys params ->
  exists sum,
    dictionary_add params other = Ok sum
    /\ keys sum = keys params
    /\ forall key p, dict_get params key = Some p ->
         exists o, dict_get other key = Some o
                   /\ dict_get sum key = Some (vadd p o).
Proof.
  intros Hwf Hkeys. apply dictionary_add_ok; auto.
  rewrite Hkeys. apply incl_refl.
Qed.
End GradientFacts.

(** ** The exact rationals obey the laws *)

Lemma Qc_ScalarLaws : @ScalarLaws Qc Qc_Scalar.
Proof.
  split.
  - exact Qcft.
  - intros a b. split.
    + apply Qc_eq_bool_correct.
    + intros ->. simpl. unfold Qc_eq_bool.
      destruct (Qc_eq_dec b b); congruence.
  - intros x n. simpl. f_equal.
Qed.

Lemma Qc_ValueLaws : @ValueLaws Qc Qc Qc_Scalar Qc_Value.
Proof.
  split; simpl; intros; ring.
Qed.

Lemma Qc_ShapedLaws : @ShapedLaws Qc Qc Qc_Scalar Qc_Value.
Proof.
  split; simpl; intros; ring.
Qed.

(** One-dimensional arrays of rationals, of all lengths together. *)

Lemma zip_with_comm {A : Type} (f : A -> A -> A) :
  (forall x y, f x y = f y x) ->
  forall xs ys, zip_with f xs ys = zip_with f ys xs.
Proof.
  intros Hf xs. induction xs as [|x xs IH]; intros [|y ys]; simpl; auto.
  now rewrite Hf, IH.
Qed.

Lemma zip_with_assoc {A : Type} (f : A -> A -> A) :
  (forall x y z, f x (f y z) = f (f x y) z) ->
  forall xs ys zs,
    zip_with f xs (zip_with f ys zs) = zip_with f (zip_with f xs ys) zs.
Proof.
  intros Hf xs. induction xs as [|x xs IH]; intros [|y ys] [|z zs]; simpl; auto.
  now rewrite Hf, IH.
Qed.

Lemma zip_with_zero_l (xs : list Qc) :
  forall ys, List.length xs = List.length ys ->
             zip_with Qcplus (map (fun x => (0 * x)%Qc) xs) ys = ys.
Proof.
  induction xs as [|x xs IH]; intros [|y ys] Hlen; simpl in *;
    try discriminate; auto.
  rewrite IH by congruence. f_equal; ring.
Qed.

Lemma zip_with_scaled_sum (c d : Qc) (xs : list Qc) :
  map (fun x => ((c + d) * x)%Qc) xs
  = zip_with Qcplus (map (fun x => (c * x)%Qc) xs)
             (map (fun x => (d * x)%Qc) xs).
Proof.
  induction xs as [|x xs IH]; simpl; auto.
  rewrite IH. f_equal; ring.
Qed.

Lemma zip_with_minus (xs : list Qc) :
  forall ys, zip_with Qcminus xs ys
             = zip_with Qcplus xs (map (fun y => (- (1) * y)%Qc) ys).
Proof.
  induction xs as [|x xs IH]; intros [|y ys]; simpl; auto.
  rewrite IH. f_equal; ring.
Qed.

Lemma QcVec_ShapedLaws : @ShapedLaws Qc (list Qc) Qc_Scalar QcVec_Value.
Proof.
  split; simpl.
  - apply zip_with_comm. intros. ring.
  - apply zip_with_assoc. intros. ring.
  - intros a b Hshape. now apply zip_with_zero_l.
  - intros a. rewrite <- (map_id a) at 2. apply map_ext. intros. ring.
  - intros c d a. rewrite map_map. apply map_ext. intros. ring.
  - apply zip_with_scaled_sum.
  - intros a c. apply map_ext. intros. ring.
  - intros a b. apply zip_with_minus.
Qed.

(** ** The stubs: all-ones perturbations *)

Lemma draws_ones (W : Type) (params : dict (list Qc)) (w : W) :
  draws ones_sampler params w
  = (map (fun kv => (fst kv, repeat 1%Qc (List.length (snd kv)))) params, w).
Proof.
  induction params as [|[key val] rest IH]; simpl; auto.
  now rewrite IH.
Qed.

Lemma scaled_ones (c : Qc) (n : nat) :
  Forall (fun x => x = c) (map (fun x => (x * c)%Qc) (repeat 1%Qc n)).
Proof.
  induction n as [|n IH]; simpl; constructor; auto.
  apply Qcmult_1_l.
Qed.

Lemma ones_gradient_get (params : dict (list Qc)) (c : Qc) key g :
  dict_wf params ->
  dict_get
    (dictionary_mult
       (map (fun kv => (fst kv, repeat 1%Qc (List.length (snd kv)))) params) c)
    key = Some g ->
  Forall (fun x => x = c) g
  /\ exists p, dict_get params key = Some p /\ List.length g = List.length p.
Proof.
  intros Hwf.
  rewrite dictionary_mult_get
    by (unfold dict_wf;
        now rewrite (keys_map_items (fun _ p => repeat 1%Qc (List.length p)))).
  rewrite (dict_get_map_items (fun _ p => repeat 1%Qc (List.length p))).
  destruct (dict_get params key) as [p|]; simpl; try discriminate.
  intros Hg. inversion Hg; subst. split.
  - apply scaled_ones.
  - exists p. split; auto. now rewrite length_map, repeat_length.
Qed.

(** ** Claims about the estimator *)

(** C1.  Forward finite difference.  For every [params] dictionary, sampler,
    inputs and forward pass, [compute_gradient] with [method = "ffd"] samples
    [h], evaluates the loss exactly twice, first at [params] and then at
    [params + h], and returns, at every key, [h[key] * (perturbed_loss -
    clean_loss)].  In particular, with the all-ones sampler and a forward pass
    whose first (clean) loss is 2 and whose second (perturbed) loss is 5,
    every element of every entry of the result is 3. *)
Theorem compute_gradient_ffd :
  (forall (Sc V : Type) (HS : Scalar Sc) (HV : Value Sc V) (W Inputs : Type)
          (forward_pass : ForwardPass W Inputs) (inputs : Inputs)
          (params : dict V) (sampler : Distribution W) (st : state W Inputs),
      dict_wf params ->
      exists h st1 perturbed clean_loss w1 perturbed_loss w2 gradient,
        sample_perturbation sampler params st = (Ok h, st1)
        /\ dictionary_add params h = Ok perturbed
        /\ (forall key p, dict_get params key = Some p ->
              exists hk, dict_get h key = Some hk
                         /\ dict_get perturbed key = Some (vadd p hk))
        /\ forward_pass inputs params (world st1) = (clean_loss, w1)
        /\ forward_pass inputs perturbed w1 = (perturbed_loss, w2)
        /\ compute_gradient forward_pass inputs params sampler "ffd" st
           = (Ok gradient,
              mkState w2 (trace st1 ++ [EvForward inputs params;
                                        EvForward inputs perturbed]))
        /\ forward_calls (trace st1) = forward_calls (trace st)
        /\ keys gradient = keys params
        /\ forall key hk, dict_get h key = Some hk ->
             dict_get gradient key
             = Some (vmulr hk (ssub perturbed_loss clean_loss)))
  /\ (forall (params : dict (list Qc)) (tr : list (event unit)),
         dict_wf params ->
         exists gradient st',
           compute_gradient (stub_forward_pass (Q2Qc 2) (Q2Qc 5)) tt params
                            ones_sampler "ffd" (mkState 0%nat tr)
           = (Ok gradient, st')
           /\ keys gradient = keys params
           /\ forall key g, dict_get gradient key = Some g ->
                Forall (fun x => x = Q2Qc 3) g
                /\ exists p, dict_get params key = Some p
                             /\ List.length g = List.length p).
Proof.
  split.
  - intros Sc V HS HV W Inputs forward_pass inputs params sampler st Hwf.
    destruct (draws sampler params (world st)) as [h w0] eqn:Hd.
    assert (Hkeys : keys h = keys params)
      by (change h with (fst (h, w0)); rewrite <- Hd; apply draws_keys).
    assert (Hwfh : dict_wf h) by (unfold dict_wf; now rewrite Hkeys).
    destruct (dictionary_add_same_keys h Hwf Hkeys)
      as (perturbed & Hadd & _ & Hget).
    destruct (forward_pass inputs params w0) as [clean_loss w1] eqn:Hc.
    destruct (forward_pass inputs perturbed w1) as [perturbed_loss w2] eqn:Hp.
    exists h, (mkState w0 (trace st ++ sample_events params)), perturbed,
      clean_loss, w1, perturbed_loss, w2,
      (dictionary_mult h (ssub perturbed_loss clean_loss)).
    split; [rewrite sample_perturbation_wf, Hd by assumption; reflexivity|].
    split; [assumption|]. split; [assumption|].
    split; [assumption|]. split; [assumption|].
    split.
    { erewrite compute_gradient_ffd_run by eassumption. simpl.
      now rewrite <- app_assoc. }
    split.
    { simpl. rewrite forward_calls_app, forward_calls_sample_events.
      apply app_nil_r. }
    split; [now rewrite dictionary_mult_keys|].
    intros key hk Hhk. rewrite dictionary_mult_get by assumption.
    now rewrite Hhk.
  - intros params tr Hwf.
    destruct (dictionary_add_same_keys
                (map (fun kv => (fst kv, repeat 1%Qc (List.length (snd kv))))
                     params) Hwf)
      as (perturbed & Hadd & _ & _).
    { apply (keys_map_items (fun _ p => repeat 1%Qc (List.length p))). }
    eexists. eexists. split.
    { eapply (compute_gradient_ffd_run (W := nat) (Inputs := unit)); eauto.
      - simpl. apply draws_ones.
      - reflexivity.
      - reflexivity. }
    split.
    { rewrite dictionary_mult_keys.
      - apply (keys_map_items (fun _ p => repeat 1%Qc (List.length p))).
      - unfold dict_wf.
        now rewrite (keys_map_items (fun _ p => repeat 1%Qc (List.length p))). }
    intros key g Hg.
    replace (Q2Qc 3) with (ssub (Q2Qc 5) (Q2Qc 2))
      by (apply Qc_is_canon; reflexivity).
    now apply ones_gradient_get.
Qed.

(** Distinctness of the keys of a literal dictionary. *)
Ltac solve_wf :=
  unfold dict_wf; simpl;
  repeat (constructor; [simpl; intuition discriminate|]); constructor.

Lemma compute_gradient_ffd_witness :
  dict_wf [("w", [Q2Qc 7; Q2Qc 8])]
  /\ (exists gradient st',
         compute_gradient (stub_forward_pass (Q2Qc 2) (Q2Qc 5)) tt
                          [("w", [Q2Qc 7; Q2Qc 8])] ones_sampler "ffd"
                          (mkState 0%nat [])
         = (Ok gradient, st')
         /\ keys gradient = ["w"])
  /\ (exists gradient st',
         compute_gradient (stub_forward_pass (Q2Qc 2) (Q2Qc 5)) tt
                          [("w", [Q2Qc 7; Q2Qc 8])] ones_sampler "ffd"
                          (mkState 0%nat [])
         = (Ok gradient, st')
         /\ keys gradient = ["w"]
         /\ forall key g, dict_get gradient key = Some g ->
              Forall (fun x => x = Q2Qc 3) g
              /\ exists p, dict_get [("w", [Q2Qc 7; Q2Qc 8])] key = Some p
                           /\ List.length g = List.length p).
Proof.
  split; [solve_wf|]. split.
  - destruct (proj1 compute_gradient_ffd Qc (list Qc) _ _ nat unit
                    (stub_forward_pass (Q2Qc 2) (Q2Qc 5)) tt
                    [("w", [Q2Qc 7; Q2Qc 8])] ones_sampler (mkState 0%nat []))
      as (h & st1 & perturbed & c & w1 & p & w2 & gradient & _ & _ & _ & _ & _
          & Hrun & _ & Hkeys & _).
    + solve_wf.
    + exists gradient. eexists. split; [exact Hrun | exact Hkeys].
  - apply (proj2 compute_gradient_ffd [("w", [Q2Qc 7; Q2Qc 8])] []). solve_wf.
Defined.

(** C2.  Central finite difference.  For every [params] dictionary, sampler,
    inputs and forward pass, [compute_gradient] with [method = "cfd"] samples
    [h], evaluates the loss exactly twice, first at [params + h] and then at
    [params + h * -1] (which is [params - h] under the module laws), never at
    the clean [params], and returns, at every key, [h[key] * (perturbed_loss -
    neg_perturbed_loss)].  In particular, with the all-ones sampler and a
    forward pass whose loss is 5 at [+h] and 1 at [-h], every element of every
    entry of the result is 4. *)
Theorem compute_gradient_cfd :
  (forall (Sc V : Type) (HS : Scalar Sc) (HV : Value Sc V) (W Inputs : Type)
          (forward_pass : ForwardPass W Inputs) (inputs : Inputs)
          (params : dict V) (sampler : Distribution W) (st : state W Inputs),
      dict_wf params ->
      exists h st1 perturbed perturbed_loss w1
             neg_perturbed neg_perturbed_loss w2 gradient,
        sample_perturbation sampler params st = (Ok h, st1)
        /\ dictionary_add params h = Ok perturbed
        /\ dictionary_add params (dictionary_mult h (sneg sone))
           = Ok neg_perturbed
        /\ (forall key p, dict_get params key = Some p ->
              exists hk, dict_get h key = Some hk
                         /\ dict_get perturbed key = Some (vadd p hk)
                         /\ dict_get neg_perturbed key
                            = Some (vadd p (vmulr hk (sneg sone)))
                         /\ (@ValueLaws Sc V HS HV ->
                             dict_get neg_perturbed key = Some (vsub p hk)))
        /\ forward_pass inputs perturbed (world st1) = (perturbed_loss, w1)
        /\ forward_pass inputs neg_perturbed w1 = (neg_perturbed_loss, w2)
        /\ compute_gradient forward_pass inputs params sampler "cfd" st
           = (Ok gradient,
              mkState w2 (trace st1 ++ [EvForward inputs perturbed;
                                        EvForward inputs neg_perturbed]))
        /\ forward_calls (trace st1) = forward_calls (trace st)
        /\ keys gradient = keys params
        /\ forall key hk, dict_get h key = Some hk ->
             dict_get gradient key
             = Some (vmulr hk (ssub perturbed_loss neg_perturbed_loss)))
  /\ (forall (params : dict (list Qc)) (tr : list (event unit)),
         dict_wf params ->
         exists gradient st',
           compute_gradient (stub_forward_pass (Q2Qc 5) (Q2Qc 1)) tt params
                            ones_sampler "cfd" (mkState 0%nat tr)
           = (Ok gradient, st')
           /\ keys gradient = keys params
           /\ forall key g, dict_get gradient key = Some g ->
                Forall (fun x => x = Q2Qc 4) g
                /\ exists p, dict_get params key = Some p
                             /\ List.length g = List.length p).
Proof.
  split.
  - intros Sc V HS HV W Inputs forward_pass inputs params sampler st Hwf.
    destruct (draws sampler params (world st)) as [h w0] eqn:Hd.
    assert (Hkeys : keys h = keys params)
      by (change h with (fst (h, w0)); rewrite <- Hd; apply draws_keys).
    assert (Hwfh : dict_wf h) by (unfold dict_wf; now rewrite Hkeys).
    destruct (dictionary_add_same_keys h Hwf Hkeys)
      as (perturbed & Hadd & _ & Hget).
    destruct (dictionary_add_same_keys (dictionary_mult h (sneg sone)) Hwf)
      as (neg_perturbed & Hneg & _ & Hgetn).
    { now rewrite dictionary_mult_keys. }
    destruct (forward_pass inputs perturbed w0) as [perturbed_loss w1] eqn:Hp.
    destruct (forward_pass inputs neg_perturbed w1)
      as [neg_perturbed_loss w2] eqn:Hn.
    exists h, (mkState w0 (trace st ++ sample_events params)), perturbed,
      perturbed_loss, w1, neg_perturbed, neg_perturbed_loss, w2,
      (dictionary_mult h (ssub perturbed_loss neg_perturbed_loss)).
    split; [rewrite sample_perturbation_wf, Hd by assumption; reflexivity|].
    split; [assumption|]. split; [assumption|].
    split.
    { intros key p Hpk.
      destruct (Hget key p Hpk) as (hk & Hhk & Hsum).
      destruct (Hgetn key p Hpk) as (o & Ho & Hsumn).
      rewrite dictionary_mult_get, Hhk in Ho by assumption.
      simpl in Ho. inversion Ho; subst.
      exists hk. repeat split; auto.
      intros Hlaws. now rewrite Hsumn, vsub_def, vmulr_vmull. }
    split; [assumption|]. split; [assumption|].
    split.
    { erewrite compute_gradient_cfd_run by eassumption. simpl.
      now rewrite <- app_assoc. }
    split.
    { simpl. rewrite forward_calls_app, forward_calls_sample_events.
      apply app_nil_r. }
    split; [now rewrite dictionary_mult_keys|].
    intros key hk Hhk. rewrite dictionary_mult_get by assumption.
    now rewrite Hhk.
  - intros params tr Hwf.
    set (h := map (fun kv => (fst kv, repeat 1%Qc (List.length (snd kv))))
                  params).
    assert (Hkeys : keys h = keys params)
      by apply (keys_map_items (fun _ p => repeat 1%Qc (List.length p))).
    assert (Hwfh : dict_wf h) by (unfold dict_wf; now rewrite Hkeys).
    destruct (dictionary_add_same_keys h Hwf Hkeys)
      as (perturbed & Hadd & _ & _).
    destruct (dictionary_add_same_keys (dictionary_mult h (sneg sone)) Hwf)
      as (neg_perturbed & Hneg & _ & _).
    { now rewrite dictionary_mult_keys. }
    eexists. eexists. split.
    { eapply (compute_gradient_cfd_run (W := nat) (Inputs := unit))
        with (h := h) (perturbed := perturbed)
             (neg_perturbed := neg_perturbed);
        try eassumption.
      - simpl. apply draws_ones.
      - reflexivity.
      - reflexivity. }
    split; [now rewrite dictionary_mult_keys|].
    intros key g Hg.
    replace (Q2Qc 4) with (ssub (Q2Qc 5) (Q2Qc 1))
      by (apply Qc_is_canon; reflexivity).
    now apply ones_gradient_get.
Qed.

Lemma compute_gradient_cfd_witness :
  dict_wf [("w", [Q2Qc 7; Q2Qc 8])]
  /\ (exists gradient st',
         compute_gradient (stub_forward_pass (Q2Qc 5) (Q2Qc 1)) tt
                          [("w", [Q2Qc 7; Q2Qc 8])] ones_sampler "cfd"
                          (mkState 0%nat [])
         = (Ok gradient, st')
         /\ keys gradient = ["w"])
  /\ (exists gradient st',
         compute_gradient (stub_forward_pass (Q2Qc 5) (Q2Qc 1)) tt
                          [("w", [Q2Qc 7; Q2Qc 8])] ones_sampler "cfd"
                          (mkState 0%nat [])
         = (Ok gradient, st')
         /\ keys gradient = ["w"]
         /\ forall key g, dict_get gradient key = Some g ->
              Forall (fun x => x = Q2Qc 4) g
              /\ exists p, dict_get [("w", [Q2Qc 7; Q2Qc 8])] key = Some p
                           /\ List.length g = List.length p)
  /\ (dict_wf [("w", Q2Qc 7)]
      /\ exists gradient perturbed neg_perturbed (st1 : state nat unit) w2 hk,
          compute_gradient (stub_forward_pass (Q2Qc 5) (Q2Qc 1)) tt
                           [("w", Q2Qc 7)] one_sampler "cfd"
                           (mkState 0%nat [])
          = (Ok gradient,
             mkState w2 (trace st1 ++ [EvForward tt perturbed;
                                       EvForward tt neg_perturbed]))
          /\ dict_get perturbed "w" = Some (vadd (Q2Qc 7) hk)
          /\ dict_get neg_perturbed "w" = Some (vsub (Q2Qc 7) hk)).
Proof.
  split; [solve_wf|]. split; [|split].
  - destruct (proj1 compute_gradient_cfd Qc (list Qc) _ _ nat unit
                    (stub_forward_pass (Q2Qc 5) (Q2Qc 1)) tt
                    [("w", [Q2Qc 7; Q2Qc 8])] ones_sampler (mkState 0%nat []))
      as (h & st1 & perturbed & p & w1 & np & nl & w2 & gradient
          & _ & _ & _ & _ & _ & _ & Hrun & _ & Hkeys & _).
    + solve_wf.
    + exists gradient. eexists. split; [exact Hrun | exact Hkeys].
  - apply (proj2 compute_gradient_cfd [("w", [Q2Qc 7; Q2Qc 8])] []). solve_wf.
  - split; [solve_wf|].
    destruct (proj1 compute_gradient_cfd Qc Qc _ _ nat unit
                    (stub_forward_pass (Q2Qc 5) (Q2Qc 1)) tt
                    [("w", Q2Qc 7)] one_sampler (mkState 0%nat []))
      as (h & st1 & perturbed & p & w1 & np & nl & w2 & gradient
          & _ & _ & _ & Hget & _ & _ & Hrun & _).
    + solve_wf.
    + destruct (Hget "w" (Q2Qc 7) eq_refl) as (hk & _ & Hp & _ & Hsub).
      exists gradient, perturbed, np, st1, w2, hk.
      split; [exact Hrun|]. split; [exact Hp|]. exact (Hsub Qc_ValueLaws).
Defined.

(** C3.  For every [method] other than ["ffd"] and ["cfd"],
    [compute_gradient] raises [ValueError] with a message that names both
    accepted values, and no forward-pass evaluation is made before the
    failure: the events the call adds to the trace contain no [EvForward]. *)
Theorem compute_gradient_invalid_method :
  forall (Sc V : Type) (HS : Scalar Sc) (HV : Value Sc V) (W Inputs : Type)
         (forward_pass : ForwardPass W Inputs) (inputs : Inputs)
         (params : dict V) (sampler : Distribution W) (method : string)
         (st : state W Inputs),
    method <> "ffd" -> method <> "cfd" ->
    exists st' added,
      compute_gradient forward_pass inputs params sampler method st
      = (Raise (ValueError invalid_option_msg), st')
      /\ contains "ffd" invalid_option_msg = true
      /\ contains "cfd" invalid_option_msg = true
      /\ trace st' = trace st ++ added
      /\ forward_calls added = []
      /\ forward_calls (trace st') = forward_calls (trace st).
Proof.
  intros Sc V HS HV W Inputs forward_pass inputs params sampler method st Hf Hc.
  eexists. exists (sample_events params).
  split; [now apply compute_gradient_invalid_run|].
  split; [reflexivity|]. split; [reflexivity|].
  split; [reflexivity|].
  split; [apply forward_calls_sample_events|].
  simpl. rewrite forward_calls_app, forward_calls_sample_events.
  apply app_nil_r.
Qed.

Lemma compute_gradient_invalid_method_witness :
  "spsa" <> "ffd" /\ "spsa" <> "cfd"
  /\ exists st' added,
      compute_gradient (stub_forward_pass (Q2Qc 2) (Q2Qc 5)) tt
                       [("w", [Q2Qc 7; Q2Qc 8])] ones_sampler "spsa"
                       (mkState 0%nat [])
      = (Raise (ValueError invalid_option_msg), st')
      /\ contains "ffd" invalid_option_msg = true
      /\ contains "cfd" invalid_option_msg = true
      /\ trace st' = [] ++ added
      /\ forward_calls added = []
      /\ forward_calls (trace st') = forward_calls [].
Proof.
  split; [discriminate|]. split; [discriminate|].
  apply (@compute_gradient_invalid_method Qc (list Qc) _ _ nat unit
           (stub_forward_pass (Q2Qc 2) (Q2Qc 5)) tt
           [("w", [Q2Qc 7; Q2Qc 8])] ones_sampler "spsa" (mkState 0%nat []));
    discriminate.
Defined.

(** C10.  With a [method] other than ["ffd"] and ["cfd"] the perturbation is
    sampled before the method is looked at: when the [ValueError] is raised
    the sampler has been called once per key of [params], each call is in the
    trace, and the sampler's world is the one those calls leave. *)
Theorem compute_gradient_invalid_method_samples :
  forall (Sc V : Type) (HS : Scalar Sc) (HV : Value Sc V) (W Inputs : Type)
         (forward_pass : ForwardPass W Inputs) (inputs : Inputs)
         (params : dict V) (sampler : Distribution W) (method : string)
         (st : state W Inputs),
    method <> "ffd" -> method <> "cfd" ->
    compute_gradient forward_pass inputs params sampler method st
    = (Raise (ValueError invalid_option_msg),
       mkState (snd (draws sampler params (world st)))
               (trace st ++ sample_events params))
    /\ List.length (sample_events params : list (event Inputs))
       = List.length (keys params)
    /\ sample_calls (trace st ++ sample_events params)
       = sample_calls (trace st) ++ sample_events params.
Proof.
  intros Sc V HS HV W Inputs forward_pass inputs params sampler method st Hf Hc.
  split; [now apply compute_gradient_invalid_run|].
  split; [apply sample_events_length|].
  now rewrite sample_calls_app, sample_calls_sample_events.
Qed.

Lemma compute_gradient_invalid_method_samples_witness :
  "spsa" <> "ffd" /\ "spsa" <> "cfd"
  /\ compute_gradient (stub_forward_pass (Q2Qc 2) (Q2Qc 5)) tt
                      [("w", [Q2Qc 7; Q2Qc 8]); ("b", [Q2Qc 1])]
                      counting_sampler "spsa" (mkState 0%nat [])
     = (Raise (ValueError invalid_option_msg),
        mkState 2%nat [EvSample 2%nat; EvSample 1%nat]).
Proof.
  split; [discriminate|]. split; [discriminate|].
  apply (proj1 (@compute_gradient_invalid_method_samples
                  Qc (list Qc) _ _ nat unit
                  (stub_forward_pass (Q2Qc 2) (Q2Qc 5)) tt
                  [("w", [Q2Qc 7; Q2Qc 8]); ("b", [Q2Qc 1])]
                  counting_sampler "spsa" (mkState 0%nat [])
                  ltac:(discriminate) ltac:(discriminate))).
Defined.

(** C8.  [compute_gradient] and [compute_gradient_vector] are the same
    routine: on every forward pass, inputs, params, sampler, method and
    starting state they return the same dictionary or raise the same
    exception, and leave the same world and trace. *)
Theorem compute_gradient_vector_same :
  forall (Sc V : Type) (HS : Scalar Sc) (HV : Value Sc V) (W Inputs : Type)
         (forward_pass : ForwardPass W Inputs) (inputs : Inputs)
         (params : dict V) (sampler : Distribution W) (method : string)
         (st : state W Inputs),
    compute_gradient forward_pass inputs params sampler method st
    = compute_gradient_vector forward_pass inputs params sampler method st.
Proof.
  intros. unfold compute_gradient, compute_gradient_vector, bind.
  destruct (sample_perturbation sampler params st) as [[h|e] st1];
    [|reflexivity].
  destruct (String.eqb method "ffd"); [reflexivity|].
  destruct (String.eqb method "cfd"); reflexivity.
Qed.

(** ** Claims about the sampler *)

Lemma draws_get (Sc V : Type) (HV : Value Sc V) (W : Type)
      (sampler : Distribution W) (params : dict V) :
  forall (w : W) key p,
    dict_get params key = Some p ->
    exists w1 w2 x,
      sample sampler (shape p) w1 = (x, w2)
      /\ dict_get (fst (draws sampler params w)) key = Some x.
Proof.
  induction params as [|[k val] rest IH]; simpl; intros w key p Hget.
  - discriminate.
  - destruct (sample sampler (shape val) w) as [x w1] eqn:Hs.
    specialize (IH w1 key p).
    destruct (draws sampler rest w1) as [r w2]. simpl in *.
    destruct (String.eqb_spec k key) as [->|Hne].
    + inversion Hget; subst. eauto.
    + auto.
Qed.

(** C7.  For every [params] dictionary and every sampler,
    [sample_perturbation] returns a dictionary with the keys of [params], in
    the same order; the sampler is called once per entry, with the shape of
    that entry's value, and the value stored under a key is what the sampler
    returned for that entry's shape.  On the empty dictionary it returns the
    empty dictionary and calls nothing. *)
Theorem sample_perturbation_same_keys :
  forall (Sc V : Type) (HS : Scalar Sc) (HV : Value Sc V) (W Inputs : Type)
         (sampler : Distribution W) (params : dict V) (st : state W Inputs),
    (dict_wf params ->
     exists h st',
       sample_perturbation sampler params st = (Ok h, st')
       /\ keys h = keys params
       /\ (h, world st') = draws sampler params (world st)
       /\ (forall key p, dict_get params key = Some p ->
             exists w1 w2 x, sample sampler (shape p) w1 = (x, w2)
                             /\ dict_get h key = Some x)
       /\ trace st' = trace st ++ sample_events params
       /\ List.length (sample_events params : list (event Inputs))
          = List.length (keys params))
    /\ sample_perturbation sampler [] st = (Ok [], st).
Proof.
  intros Sc V HS HV W Inputs sampler params st. split.
  - intros Hwf. eexists. eexists.
    split; [now apply sample_perturbation_wf|].
    split; [apply draws_keys|]. simpl.
    split; [now destruct (draws sampler params (world st))|].
    split; [intros key p Hp; now apply draws_get|].
    split; [reflexivity | apply sample_events_length].
  - unfold sample_perturbation. simpl. reflexivity.
Qed.

Lemma sample_perturbation_same_keys_witness :
  dict_wf [("w", [Q2Qc 7; Q2Qc 8]); ("b", [Q2Qc 1])]
  /\ exists h st',
       sample_perturbation (Inputs := unit) counting_sampler
                           [("w", [Q2Qc 7; Q2Qc 8]); ("b", [Q2Qc 1])]
                           (mkState 0%nat [])
       = (Ok h, st')
       /\ keys h = ["w"; "b"]
       /\ trace st' = [EvSample 2%nat; EvSample 1%nat].
Proof.
  split; [solve_wf|].
  destruct (proj1 (@sample_perturbation_same_keys Qc (list Qc) _ _ nat unit
                     counting_sampler
                     [("w", [Q2Qc 7; Q2Qc 8]); ("b", [Q2Qc 1])]
                     (mkState 0%nat [])))
    as (h & st' & Hrun & Hkeys & _ & _ & Htrace & _).
  - solve_wf.
  - exists h, st'. split; [exact Hrun|]. split; [exact Hkeys | exact Htrace].
Defined.

(** ** Claims about the dictionary sum *)

(** C6.  [dictionary_add A B] iterates over the keys of [A] only.  When every
    key of [A] is a key of [B] it returns a dictionary [C] with exactly the
    keys of [A] and [C[k] = A[k] + B[k]] at each of them; keys that only [B]
    has raise nothing and are not in [C].  When some key of [A] is missing
    from [B] it raises [KeyError] for such a key. *)
Theorem dictionary_add_one_sided :
  forall (Sc V : Type) (HV : Value Sc V) (A B : dict V),
    dict_wf A ->
    (incl (keys A) (keys B) ->
     exists C,
       dictionary_add A B = Ok C
       /\ keys C = keys A
       /\ (forall key a, dict_get A key = Some a ->
             exists b, dict_get B key = Some b
                       /\ dict_get C key = Some (vadd a b))
       /\ (forall key, ~ In key (keys A) -> dict_get C key = None))
    /\ (~ incl (keys A) (keys B) ->
        exists key,
          dictionary_add A B = Raise (KeyError key)
          /\ In key (keys A) /\ ~ In key (keys B)).
Proof.
  intros Sc V HV A B Hwf. split.
  - intros Hincl.
    destruct (dictionary_add_ok B Hwf Hincl) as (C & Hadd & Hkeys & Hget).
    exists C. repeat split; auto.
    intros key Hkey. apply dict_get_None. now rewrite Hkeys.
  - intros Hnincl. destruct (dictionary_add A B) as [C|e] eqn:Hadd.
    + exfalso. apply Hnincl. eapply dictionary_add_ok_inv; eauto.
    + destruct (dictionary_add_raise _ Hwf Hadd) as (key & -> & Hin & Hnin).
      eauto.
Qed.

Lemma dictionary_add_one_sided_witness :
  (dict_wf [("w", Q2Qc 1)]
   /\ incl (keys [("w", Q2Qc 1)]) (keys [("w", Q2Qc 2); ("extra", Q2Qc 5)])
   /\ exists C,
       dictionary_add [("w", Q2Qc 1)] [("w", Q2Qc 2); ("extra", Q2Qc 5)] = Ok C
       /\ keys C = ["w"]
       /\ dict_get C "extra" = None)
  /\ (dict_wf [("w", Q2Qc 1); ("v", Q2Qc 1)]
      /\ ~ incl (keys [("w", Q2Qc 1); ("v", Q2Qc 1)]) (keys [("w", Q2Qc 2)])
      /\ exists key,
          dictionary_add [("w", Q2Qc 1); ("v", Q2Qc 1)] [("w", Q2Qc 2)]
          = Raise (KeyError key)
          /\ ~ In key (keys [("w", Q2Qc 2)])).
Proof.
  assert (Hincl : incl (keys [("w", Q2Qc 1)])
                       (keys [("w", Q2Qc 2); ("extra", Q2Qc 5)]))
    by (intros k [<-|[]]; simpl; auto).
  assert (Hnincl : ~ incl (keys [("w", Q2Qc 1); ("v", Q2Qc 1)])
                          (keys [("w", Q2Qc 2)])).
  { intros Hall. destruct (Hall "v") as [Heq|[]]; [simpl; auto | discriminate]. }
  split.
  - split; [solve_wf|]. split; [exact Hincl|].
    destruct (proj1 (@dictionary_add_one_sided Qc Qc _ [("w", Q2Qc 1)]
                       [("w", Q2Qc 2); ("extra", Q2Qc 5)] ltac:(solve_wf))
                    Hincl)
      as (C & Hadd & Hkeys & _ & Hout).
    exists C. split; [exact Hadd|]. split; [exact Hkeys|].
    apply Hout. simpl. intros [Heq|[]]. discriminate.
  - split; [solve_wf|]. split; [exact Hnincl|].
    destruct (proj2 (@dictionary_add_one_sided Qc Qc _
                       [("w", Q2Qc 1); ("v", Q2Qc 1)]
                       [("w", Q2Qc 2)] ltac:(solve_wf))
                    Hnincl)
      as (key & Hadd & _ & Hnin).
    exists key. split; [exact Hadd | exact Hnin].
Defined.

(** ** The update rule *)

Section UpdateFacts.
Context {Sc V : Type} `{Scalar Sc} `{Value Sc V}.

Lemma update_weights_wf (gradient params : dict V) (scale lr square : Sc) :
  dict_wf gradient ->
  spower scale 2 = Ok square ->
  seqb square szero = false ->
  update_weights gradient params scale lr
  = dictionary_add
      (map (fun kv => (fst kv, vmull (sdiv (sneg lr) square) (snd kv)))
           gradient)
      params.
Proof.
  intros Hwf Hp Hs. unfold update_weights.
  rewrite dict_comp_r_wf by assumption. rewrite Hp. cbn [rbind].
  unfold py_div. rewrite Hs. cbn [rbind].
  now rewrite (map_items_r_total
                 (fun _ val => vmull (sdiv (sneg lr) square) val)).
Qed.

Lemma update_weights_keys (gradient params r : dict V) (scale lr : Sc) :
  dict_wf gradient ->
  update_weights gradient params scale lr = Ok r ->
  keys r = keys gradient.
Proof.
  intros Hwf. unfold update_weights.
  rewrite dict_comp_r_wf by assumption.
  destruct (map_items_r _ gradient) as [delta_W|e] eqn:Hd; simpl;
    try discriminate.
  intros Hadd. apply map_items_r_keys in Hd.
  rewrite <- Hd. eapply dictionary_add_keys; eauto.
  unfold dict_wf. now rewrite Hd.
Qed.

Lemma update_weights_zero_division (gradient params : dict V)
      (scale lr square : Sc) :
  spower scale 2 = Ok square ->
  seqb square szero = true ->
  gradient <> [] ->
  update_weights gradient params scale lr = Raise ZeroDivisionError.
Proof.
  intros Hp Hs Hne. destruct gradient as [|[key val] rest]; [congruence|].
  unfold update_weights, dict_comp_r. cbn [dict_comp_loop].
  rewrite Hp. cbn [rbind]. unfold py_div. now rewrite Hs.
Qed.

Lemma update_weights_power_raises (gradient params : dict V)
      (scale lr : Sc) (e : exn) :
  spower scale 2 = Raise e ->
  gradient <> [] ->
  update_weights gradient params scale lr = Raise e.
Proof.
  intros Hp Hne. destruct gradient as [|[key val] rest]; [congruence|].
  unfold update_weights, dict_comp_r. cbn [dict_comp_loop].
  now rewrite Hp.
Qed.

Lemma update_weights_entries (gradient params : dict V)
      (scale lr square : Sc) :
  dict_wf gradient ->
  incl (keys gradient) (keys params) ->
  spower scale 2 = Ok square ->
  seqb square szero = false ->
  exists r,
    update_weights gradient params scale lr = Ok r
    /\ keys r = keys gradient
    /\ forall key g, dict_get gradient key = Some g ->
         exists p, dict_get params key = Some p
                   /\ dict_get r key
                      = Some (vadd (vmull (sdiv (sneg lr) square) g) p).
Proof.
  intros Hwf Hincl Hp Hs.
  erewrite update_weights_wf by eassumption.
  set (q := sdiv (sneg lr) square).
  pose proof (keys_map_items (fun _ val => vmull q val) gradient) as Hkeys.
  cbv beta in Hkeys.
  destruct (dictionary_add_ok
              (dict1 := map (fun kv => (fst kv, vmull q (snd kv))) gradient)
              params)
    as (r & Hadd & Hkr & Hget).
  { unfold dict_wf. now rewrite Hkeys. }
  { now rewrite Hkeys. }
  exists r. split; [assumption|]. split; [congruence|].
  intros key g Hg.
  destruct (Hget key (vmull q g)) as (p & Hpk & Hr).
  { rewrite (dict_get_map_items (fun _ val => vmull q val)), Hg. reflexivity. }
  eauto.
Qed.
End UpdateFacts.

(** ** The update rule in exact arithmetic *)

Section UpdateLaws.
Context {Sc V : Type} `{Scalar Sc} `{Value Sc V}.
Context {SL : @ScalarLaws Sc _} {ShL : @ShapedLaws Sc V _ _}.

Add Field scalar_field_structure : scalar_field.

Lemma spower_square (scale : Sc) : spower scale 2 = Ok (smul scale scale).
Proof.
  rewrite spower_exact. simpl. f_equal. ring.
Qed.

Lemma square_nonzero (scale : Sc) :
  scale <> szero -> seqb (smul scale scale) szero = false.
Proof.
  intros Hs. destruct (seqb (smul scale scale) szero) eqn:E; auto.
  apply seqb_eq in E. exfalso. apply Hs.
  assert (Hscale : scale = smul (sinv scale) (smul scale scale))
    by (field; assumption).
  rewrite Hscale, E. ring.
Qed.

Lemma update_entry (scale lr : Sc) (g p : V) :
  scale <> szero ->
  vadd (vmull (sdiv (sneg lr) (smul scale scale)) g) p
  = vsub p (vmull (sdiv lr (smul scale scale)) g).
Proof.
  intros Hs.
  rewrite shaped_vsub_def, shaped_vmull_vmull, shaped_vadd_comm.
  do 2 f_equal. field. assumption.
Qed.

Lemma update_entry_lr_zero (scale : Sc) (g p : V) :
  scale <> szero ->
  shape g = shape p ->
  vadd (vmull (sdiv (sneg szero) (smul scale scale)) g) p = p.
Proof.
  intros Hs Hshape.
  replace (sdiv (sneg szero) (smul scale scale)) with (szero : Sc)
    by (field; assumption).
  now apply shaped_vadd_0_l.
Qed.

Lemma update_entry_equal_losses (q loss : Sc) (hk p : V) :
  shape hk = shape p ->
  vadd (vmull q (vmulr hk (ssub loss loss))) p = p.
Proof.
  intros Hshape. rewrite shaped_vmulr_vmull, shaped_vmull_vmull.
  replace (smul q (ssub loss loss)) with (szero : Sc) by ring.
  now apply shaped_vadd_0_l.
Qed.
End UpdateLaws.

(** ** Claims about the update rule *)

(** C4, as stated, fails on the numbers the function is annotated with.  On
    binary64 the nonzero scale [2 ** -700] has a square that underflows to
    zero, and [update_weights] raises [ZeroDivisionError]; the scale
    [2 ** 600] has a square out of range, and [update_weights] raises
    [OverflowError]. *)
Lemma update_weights_descent_counterexample :
  PrimFloat.eqb 0x1p-700%float 0%float = false
  /\ update_weights [("w", 2%float)] [("w", 10%float)] 0x1p-700%float
                    0x1.999999999999ap-4%float
     = Raise ZeroDivisionError
  /\ PrimFloat.eqb 0x1p600%float 0%float = false
  /\ update_weights [("w", 2%float)] [("w", 10%float)] 0x1p600%float
                    0x1.999999999999ap-4%float
     = Raise OverflowError.
Proof.
  repeat split; vm_compute; reflexivity.
Qed.

(** C4, amended.  For every gradient dictionary, every params dictionary
    that has every key of the gradient, every [lr] and every [scale] whose
    square [scale ** 2] evaluates without error to a nonzero value,
    [update_weights] returns a dictionary with the keys of the gradient
    whose entry at each key [k] is
    [(-lr / scale ** 2) * gradient[k] + params[k]].  In exact arithmetic
    that is the case for every nonzero [scale], and the entry is
    [params[k] - (lr / (scale * scale)) * gradient[k]].  In particular
    gradient [{"w": 2.0}], params [{"w": 10.0}], [scale = 1.0] and
    [lr = 0.1] give [{"w": 9.8}], on exact rationals and on binary64. *)
Theorem update_weights_descent :
  (forall (Sc V : Type) (HS : Scalar Sc) (HV : Value Sc V)
          (gradient params : dict V) (scale lr square : Sc),
      dict_wf gradient ->
      incl (keys gradient) (keys params) ->
      spower scale 2 = Ok square ->
      seqb square szero = false ->
      exists r,
        update_weights gradient params scale lr = Ok r
        /\ keys r = keys gradient
        /\ forall key g, dict_get gradient key = Some g ->
             exists p, dict_get params key = Some p
                       /\ dict_get r key
                          = Some (vadd (vmull (sdiv (sneg lr) square) g) p))
  /\ (forall (Sc V : Type) (HS : Scalar Sc) (HV : Value Sc V)
             (SL : @ScalarLaws Sc HS) (ShL : @ShapedLaws Sc V HS HV)
             (gradient params : dict V) (scale lr : Sc),
         dict_wf gradient ->
         incl (keys gradient) (keys params) ->
         scale <> szero ->
         exists r,
           update_weights gradient params scale lr = Ok r
           /\ keys r = keys gradient
           /\ forall key g, dict_get gradient key = Some g ->
                exists p, dict_get params key = Some p
                          /\ dict_get r key
                             = Some (vsub p (vmull (sdiv lr (smul scale scale))
                                                   g)))
  /\ update_weights [("w", Q2Qc 2)] [("w", Q2Qc 10)] (Q2Qc 1) (Q2Qc 0.1)
     = Ok [("w", Q2Qc 9.8)]
  /\ update_weights [("w", 2%float)] [("w", 10%float)] 1%float
                    0x1.999999999999ap-4%float
     = Ok [("w", 0x1.399999999999ap+3%float)].
Proof.
  split; [|split; [|split; [|vm_compute; reflexivity]]].
  - intros Sc V HS HV gradient params scale lr square Hwf Hincl Hp Hs.
    now apply update_weights_entries.
  - intros Sc V HS HV SL ShL gradient params scale lr Hwf Hincl Hs.
    destruct (@update_weights_entries Sc V HS HV gradient params scale lr
                (smul scale scale) Hwf Hincl (spower_square scale)
                (square_nonzero Hs))
      as (r & Hr & Hkeys & Hget).
    exists r. split; [assumption|]. split; [assumption|].
    intros key g Hg. destruct (Hget key g Hg) as (p & Hp & Hrk).
    exists p. split; [assumption|]. now rewrite Hrk, update_entry.
  - assert (E : update_weights [("w", Q2Qc 2)] [("w", Q2Qc 10)]
                               (Q2Qc 1) (Q2Qc 0.1)
                = Ok [("w", Qcplus (Qcmult (Qcdiv (Qcopp (Q2Qc 0.1))
                                                  (Qcpower (Q2Qc 1) 2))
                                           (Q2Qc 2))
                                   (Q2Qc 10))])
      by reflexivity.
    rewrite E. do 3 f_equal. apply Qc_is_canon. reflexivity.
Qed.

(** Two entries of different shapes, [scale = 2]: the square is 4. *)
Lemma update_weights_descent_witness :
  dict_wf [("w", [Q2Qc 2; Q2Qc 4]); ("b", [Q2Qc 6])]
  /\ incl (keys [("w", [Q2Qc 2; Q2Qc 4]); ("b", [Q2Qc 6])])
          (keys [("b", [Q2Qc 30]); ("w", [Q2Qc 10; Q2Qc 20])])
  /\ spower (Q2Qc 2) 2 = Ok (Q2Qc 4)
  /\ seqb (Q2Qc 4) szero = false
  /\ Q2Qc 2 <> szero
  /\ (exists r,
         update_weights [("w", [Q2Qc 2; Q2Qc 4]); ("b", [Q2Qc 6])]
                        [("b", [Q2Qc 30]); ("w", [Q2Qc 10; Q2Qc 20])]
                        (Q2Qc 2) (Q2Qc 0.1)
         = Ok r
         /\ keys r = ["w"; "b"]
         /\ dict_get r "b"
            = Some (vadd (vmull (sdiv (sneg (Q2Qc 0.1)) (Q2Qc 4)) [Q2Qc 6])
                         [Q2Qc 30]))
  /\ (exists r,
         update_weights [("w", [Q2Qc 2; Q2Qc 4]); ("b", [Q2Qc 6])]
                        [("b", [Q2Qc 30]); ("w", [Q2Qc 10; Q2Qc 20])]
                        (Q2Qc 2) (Q2Qc 0.1)
         = Ok r
         /\ dict_get r "w"
            = Some (vsub [Q2Qc 10; Q2Qc 20]
                         (vmull (sdiv (Q2Qc 0.1) (smul (Q2Qc 2) (Q2Qc 2)))
                                [Q2Qc 2; Q2Qc 4]))).
Proof.
  assert (Hincl : incl (keys [("w", [Q2Qc 2; Q2Qc 4]); ("b", [Q2Qc 6])])
                       (keys [("b", [Q2Qc 30]); ("w", [Q2Qc 10; Q2Qc 20])]))
    by (intros k Hk; simpl in *; tauto).
  assert (Hsq : spower (Q2Qc 2) 2 = Ok (Q2Qc 4))
    by (simpl; f_equal; apply Qc_is_canon; reflexivity).
  assert (Hnz : seqb (Q2Qc 4) szero = false) by reflexivity.
  assert (Htwo : Q2Qc 2 <> szero) by (intros E; discriminate E).
  split; [solve_wf|]. split; [exact Hincl|]. split; [exact Hsq|].
  split; [exact Hnz|]. split; [exact Htwo|]. split.
  - destruct (proj1 update_weights_descent Qc (list Qc) _ _
                    [("w", [Q2Qc 2; Q2Qc 4]); ("b", [Q2Qc 6])]
                    [("b", [Q2Qc 30]); ("w", [Q2Qc 10; Q2Qc 20])]
                    (Q2Qc 2) (Q2Qc 0.1) (Q2Qc 4)
                    ltac:(solve_wf) Hincl Hsq Hnz)
      as (r & Hr & Hkeys & Hget).
    exists r. split; [exact Hr|]. split; [exact Hkeys|].
    destruct (Hget "b" [Q2Qc 6] eq_refl) as (p & Hp & Hrb).
    inversion Hp; subst. exact Hrb.
  - destruct (proj1 (proj2 update_weights_descent) Qc (list Qc) _ _
                    Qc_ScalarLaws QcVec_ShapedLaws
                    [("w", [Q2Qc 2; Q2Qc 4]); ("b", [Q2Qc 6])]
                    [("b", [Q2Qc 30]); ("w", [Q2Qc 10; Q2Qc 20])]
                    (Q2Qc 2) (Q2Qc 0.1) ltac:(solve_wf) Hincl Htwo)
      as (r & Hr & _ & Hget).
    exists r. split; [exact Hr|].
    destruct (Hget "w" [Q2Qc 2; Q2Qc 4] eq_refl) as (p & Hp & Hrw).
    inversion Hp; subst. exact Hrw.
Defined.

(** C9.  The dictionary [update_weights] returns has exactly the keys of
    [gradient], in the order of [gradient]: a key that only [params] has is
    not in the result.  (A result exists whenever [params] has every key of
    the gradient and [scale ** 2] evaluates to a nonzero value.) *)
Theorem update_weights_result_keys :
  forall (Sc V : Type) (HS : Scalar Sc) (HV : Value Sc V)
         (gradient params : dict V) (scale lr : Sc),
    dict_wf gradient ->
    (forall r, update_weights gradient params scale lr = Ok r ->
       keys r = keys gradient
       /\ forall key, In key (keys params) -> ~ In key (keys gradient) ->
            dict_get r key = None)
    /\ (incl (keys gradient) (keys params) ->
        forall square,
          spower scale 2 = Ok square ->
          seqb square szero = false ->
          exists r, update_weights gradient params scale lr = Ok r).
Proof.
  intros Sc V HS HV gradient params scale lr Hwf. split.
  - intros r Hr. pose proof (update_weights_keys _ _ _ Hwf Hr) as Hkeys.
    split; [assumption|].
    intros key _ Hnin. apply dict_get_None. now rewrite Hkeys.
  - intros Hincl square Hp Hs.
    destruct (@update_weights_entries Sc V HS HV gradient params scale lr
                square Hwf Hincl Hp Hs) as (r & Hr & _).
    eauto.
Qed.

Lemma update_weights_result_keys_witness :
  dict_wf [("w", Q2Qc 2)]
  /\ exists r,
      update_weights [("w", Q2Qc 2)] [("w", Q2Qc 10); ("b", Q2Qc 1)]
                     (Q2Qc 1) (Q2Qc 0.1)
      = Ok r
      /\ keys r = ["w"]
      /\ dict_get r "b" = None.
Proof.
  split; [solve_wf|].
  destruct (@update_weights_result_keys Qc Qc _ _
              [("w", Q2Qc 2)] [("w", Q2Qc 10); ("b", Q2Qc 1)]
              (Q2Qc 1) (Q2Qc 0.1) ltac:(solve_wf))
    as [Hkeys Hex].
  destruct (Hex ltac:(intros k [<-|[]]; simpl; auto)
                (Qcpower (Q2Qc 1) 2) eq_refl eq_refl) as [r Hr].
  destruct (Hkeys r Hr) as [Hk Hdrop].
  exists r. split; [exact Hr|]. split; [exact Hk|].
  apply Hdrop.
  - simpl. auto.
  - simpl. intros [Heq|[]]. discriminate.
Defined.

(** C5, as stated, fails.  With [lr = 0]:
    - a key that only [params] has is dropped, so the result is not [params];
    - a key that only [gradient] has raises [KeyError];
    - [scale = 0] with a non-empty gradient raises [ZeroDivisionError];
    - on binary64 an infinite gradient entry turns the weight into a NaN,
      and the nonzero scale [2 ** -700], whose square underflows to zero,
      raises [ZeroDivisionError]. *)
Lemma update_weights_lr_zero_counterexample :
  (exists r,
      update_weights [("w", Q2Qc 2)] [("w", Q2Qc 10); ("b", Q2Qc 1)]
                     (Q2Qc 1) (Q2Qc 0)
      = Ok r
      /\ keys r = ["w"]
      /\ ~ dict_eq r [("w", Q2Qc 10); ("b", Q2Qc 1)])
  /\ update_weights [("w", Q2Qc 2)] [("b", Q2Qc 1)] (Q2Qc 1) (Q2Qc 0)
     = Raise (KeyError "w")
  /\ update_weights [("w", Q2Qc 2)] [("w", Q2Qc 10)] (Q2Qc 0) (Q2Qc 0)
     = Raise ZeroDivisionError
  /\ update_weights [("w", PrimFloat.infinity)] [("w", 10%float)]
                    1%float 0%float
     = Ok [("w", PrimFloat.nan)]
  /\ update_weights [("w", 2%float)] [("w", 10%float)] 0x1p-700%float 0%float
     = Raise ZeroDivisionError.
Proof.
  split; [|split; [reflexivity|split; [reflexivity|]]].
  - eexists. split; [reflexivity|]. split; [reflexivity|].
    intros Heq. specialize (Heq "b"). discriminate Heq.
  - split; vm_compute; reflexivity.
Qed.

(** C5, amended.  For every gradient and params dictionaries with the same
    key set and every [scale] whose square [scale ** 2] evaluates without
    error to a nonzero value, [update_weights] with [lr = 0] returns a
    dictionary with the keys of the gradient whose entry at each key [k] is
    [(-0 / scale ** 2) * gradient[k] + params[k]]; it is equal to [params]
    as soon as each of these entries is [params[k]].  In exact arithmetic
    that is the case for every nonzero [scale] when each [gradient[k]] has
    the shape of [params[k]]. *)
Theorem update_weights_lr_zero :
  (forall (Sc V : Type) (HS : Scalar Sc) (HV : Value Sc V)
          (gradient params : dict V) (scale square : Sc),
      dict_wf gradient ->
      (forall key, In key (keys gradient) <-> In key (keys params)) ->
      spower scale 2 = Ok square ->
      seqb square szero = false ->
      exists r,
        update_weights gradient params scale szero = Ok r
        /\ keys r = keys gradient
        /\ (forall key g, dict_get gradient key = Some g ->
              exists p,
                dict_get params key = Some p
                /\ dict_get r key
                   = Some (vadd (vmull (sdiv (sneg szero) square) g) p))
        /\ ((forall key g p,
                dict_get gradient key = Some g ->
                dict_get params key = Some p ->
                vadd (vmull (sdiv (sneg szero) square) g) p = p) ->
            dict_eq r params))
  /\ (forall (Sc V : Type) (HS : Scalar Sc) (HV : Value Sc V)
             (SL : @ScalarLaws Sc HS) (ShL : @ShapedLaws Sc V HS HV)
             (gradient params : dict V) (scale : Sc),
         dict_wf gradient ->
         (forall key, In key (keys gradient) <-> In key (keys params)) ->
         scale <> szero ->
         (forall key g p,
             dict_get gradient key = Some g ->
             dict_get params key = Some p ->
             shape g = shape p) ->
         exists r,
           update_weights gradient params scale szero = Ok r
           /\ keys r = keys gradient
           /\ dict_eq r params).
Proof.
  assert (Hcore :
    forall (Sc V : Type) (HS : Scalar Sc) (HV : Value Sc V)
           (gradient params : dict V) (scale square : Sc),
      dict_wf gradient ->
      (forall key, In key (keys gradient) <-> In key (keys params)) ->
      spower scale 2 = Ok square ->
      seqb square szero = false ->
      exists r,
        update_weights gradient params scale szero = Ok r
        /\ keys r = keys gradient
        /\ (forall key g, dict_get gradient key = Some g ->
              exists p,
                dict_get params key = Some p
                /\ dict_get r key
                   = Some (vadd (vmull (sdiv (sneg szero) square) g) p))
        /\ ((forall key g p,
                dict_get gradient key = Some g ->
                dict_get params key = Some p ->
                vadd (vmull (sdiv (sneg szero) square) g) p = p) ->
            dict_eq r params)).
  { intros Sc V HS HV gradient params scale square Hwf Hsame Hp Hs.
    destruct (@update_weights_entries Sc V HS HV gradient params scale szero
                square Hwf) as (r & Hr & Hkeys & Hget); auto.
    { intros key Hkey. now apply Hsame. }
    exists r. split; [assumption|]. split; [assumption|].
    split; [assumption|].
    intros Hentry key. destruct (dict_get gradient key) as [g|] eqn:Hg.
    - destruct (Hget key g Hg) as (p & Hpk & Hrk).
      rewrite Hrk, Hpk. f_equal. eapply Hentry; eauto.
    - apply dict_get_None in Hg.
      assert (Hr_none : dict_get r key = None)
        by (apply dict_get_None; now rewrite Hkeys).
      assert (Hp_none : dict_get params key = None)
        by (apply dict_get_None; intros Hin; apply Hg; now apply Hsame).
      congruence. }
  split; [exact Hcore|].
  intros Sc V HS HV SL ShL gradient params scale Hwf Hsame Hs Hshape.
  destruct (Hcore Sc V HS HV gradient params scale (smul scale scale)
                  Hwf Hsame (spower_square scale) (square_nonzero Hs))
    as (r & Hr & Hkeys & _ & Heq).
  exists r. split; [assumption|]. split; [assumption|].
  apply Heq. intros key g p Hg Hpk.
  apply update_entry_lr_zero; eauto.
Qed.

(** Two entries of different shapes, listed in different orders. *)
Lemma update_weights_lr_zero_witness :
  dict_wf [("w", [Q2Qc 2; Q2Qc 4]); ("b", [Q2Qc 3])]
  /\ (forall key, In key (keys [("w", [Q2Qc 2; Q2Qc 4]); ("b", [Q2Qc 3])])
                  <-> In key (keys [("b", [Q2Qc 1]);
                                    ("w", [Q2Qc 10; Q2Qc 20])]))
  /\ spower (Q2Qc 5) 2 = Ok (Q2Qc 25)
  /\ seqb (Q2Qc 25) szero = false
  /\ Q2Qc 5 <> szero
  /\ (exists r,
         update_weights [("w", [Q2Qc 2; Q2Qc 4]); ("b", [Q2Qc 3])]
                        [("b", [Q2Qc 1]); ("w", [Q2Qc 10; Q2Qc 20])]
                        (Q2Qc 5) szero
         = Ok r
         /\ keys r = ["w"; "b"]
         /\ dict_get r "b"
            = Some (vadd (vmull (sdiv (sneg szero) (Q2Qc 25)) [Q2Qc 3])
                         [Q2Qc 1]))
  /\ (exists r,
         update_weights [("w", [Q2Qc 2; Q2Qc 4]); ("b", [Q2Qc 3])]
                        [("b", [Q2Qc 1]); ("w", [Q2Qc 10; Q2Qc 20])]
                        (Q2Qc 5) szero
         = Ok r
         /\ keys r = ["w"; "b"]
         /\ dict_eq r [("b", [Q2Qc 1]); ("w", [Q2Qc 10; Q2Qc 20])]).
Proof.
  assert (Hsame : forall key,
             In key (keys [("w", [Q2Qc 2; Q2Qc 4]); ("b", [Q2Qc 3])])
             <-> In key (keys [("b", [Q2Qc 1]); ("w", [Q2Qc 10; Q2Qc 20])]))
    by (intros key; simpl; tauto).
  assert (Hsq : spower (Q2Qc 5) 2 = Ok (Q2Qc 25))
    by (simpl; f_equal; apply Qc_is_canon; reflexivity).
  assert (Hnz : seqb (Q2Qc 25) szero = false) by reflexivity.
  assert (Hfive : Q2Qc 5 <> szero) by (intros E; discriminate E).
  assert (Hshape : forall key (g p : list Qc),
             dict_get [("w", [Q2Qc 2; Q2Qc 4]); ("b", [Q2Qc 3])] key = Some g ->
             dict_get [("b", [Q2Qc 1]); ("w", [Q2Qc 10; Q2Qc 20])] key
             = Some p ->
             shape g = shape p).
  { intros key g p Hg Hp.
    pose proof (dict_get_Some_In _ _ Hg) as Hin. simpl in Hin.
    destruct Hin as [<-|[<-|[]]]; cbn in Hg, Hp;
      inversion Hg; inversion Hp; reflexivity. }
  split; [solve_wf|]. split; [exact Hsame|]. split; [exact Hsq|].
  split; [exact Hnz|]. split; [exact Hfive|]. split.
  - destruct (proj1 update_weights_lr_zero Qc (list Qc) _ _
                    [("w", [Q2Qc 2; Q2Qc 4]); ("b", [Q2Qc 3])]
                    [("b", [Q2Qc 1]); ("w", [Q2Qc 10; Q2Qc 20])]
                    (Q2Qc 5) (Q2Qc 25) ltac:(solve_wf) Hsame Hsq Hnz)
      as (r & Hr & Hkeys & Hget & _).
    exists r. split; [exact Hr|]. split; [exact Hkeys|].
    destruct (Hget "b" [Q2Qc 3] eq_refl) as (p & Hp & Hrb).
    inversion Hp; subst. exact Hrb.
  - exact (proj2 update_weights_lr_zero Qc (list Qc) _ _
                 Qc_ScalarLaws QcVec_ShapedLaws
                 [("w", [Q2Qc 2; Q2Qc 4]); ("b", [Q2Qc 3])]
                 [("b", [Q2Qc 1]); ("w", [Q2Qc 10; Q2Qc 20])]
                 (Q2Qc 5) ltac:(solve_wf) Hsame Hfive Hshape).
Defined.

(** ** The three worked examples in binary64

    The same runs on IEEE 754 doubles, evaluated by the kernel: the rounded
    results are the literals [3.0], [4.0] and [9.8]. *)

Example compute_gradient_ffd_binary64 :
  compute_gradient (stub_forward_pass 2%float 5%float) tt
                   [("w", [7%float; 8%float])] ones_sampler64 "ffd"
                   (mkState 0%nat [])
  = (Ok [("w", [3%float; 3%float])],
     mkState 2%nat
             [@EvSample float (list float) floatVec_Value unit 2%nat;
              EvForward tt [("w", [7%float; 8%float])];
              EvForward tt [("w", [8%float; 9%float])]]).
Proof. vm_compute. reflexivity. Qed.

Example compute_gradient_cfd_binary64 :
  compute_gradient (stub_forward_pass 5%float 1%float) tt
                   [("w", [7%float; 8%float])] ones_sampler64 "cfd"
                   (mkState 0%nat [])
  = (Ok [("w", [4%float; 4%float])],
     mkState 2%nat
             [@EvSample float (list float) floatVec_Value unit 2%nat;
              EvForward tt [("w", [8%float; 9%float])];
              EvForward tt [("w", [6%float; 7%float])]]).
Proof. vm_compute. reflexivity. Qed.

Example update_weights_binary64 :
  update_weights [("w", 2%float)] [("w", 10%float)] 1%float
                 0x1.999999999999ap-4%float
  = Ok [("w", 0x1.399999999999ap+3%float)].
Proof. vm_compute. reflexivity. Qed.

(** * Further properties of the module *)

(** ** Dictionary arithmetic *)

Section ArithmeticMore.
Context {Sc V : Type} `{Scalar Sc} `{Value Sc V}.

Lemma first_missing_None {A B : Type} (d : dict A) (other : dict B) :
  first_missing d other = None <-> incl (keys d) (keys other).
Proof.
  induction d as [|[key val] rest IH]; simpl.
  - split; [intros _ k [] | reflexivity].
  - destruct (dict_get other key) as [b|] eqn:Hget.
    + rewrite IH. split.
      * intros Hrest k [<-|Hk]; [eapply dict_get_Some_In; eauto | auto].
      * intros Hall k Hk. apply Hall. now right.
    + split; [discriminate|].
      intros Hall. apply dict_get_None in Hget. exfalso. apply Hget.
      apply Hall. now left.
Qed.

Lemma first_missing_Some {A B : Type} (d : dict A) (other : dict B) key :
  first_missing d other = Some key ->
  In key (keys d) /\ ~ In key (keys other).
Proof.
  induction d as [|[k val] rest IH]; simpl; [discriminate|].
  destruct (dict_get other k) as [b|] eqn:Hget.
  - intros Hm. destruct (IH Hm). auto.
  - intros Hm. inversion Hm; subst. split; [now left|].
    now apply dict_get_None.
Qed.

Lemma first_missing_map {A B C : Type} (f : string * A -> C)
      (d : dict A) (other : dict B) :
  first_missing (map (fun kv => (fst kv, f kv)) d) other
  = first_missing d other.
Proof.
  induction d as [|[key val] rest IH]; simpl; auto.
  now rewrite IH.
Qed.

Lemma dictionary_add_loop_missing (dict1 dict2 : dict V) key :
  first_missing dict1 dict2 = Some key ->
  forall acc,
    dict_comp_loop
      (fun k val => rbind (dict_subscript dict2 k)
                          (fun v2 => Ok (vadd val v2)))
      dict1 acc
    = Raise (KeyError key).
Proof.
  induction dict1 as [|[k val] rest IH]; simpl; [discriminate|].
  intros Hm acc. unfold dict_subscript at 1.
  destruct (dict_get dict2 k) as [b|]; simpl.
  - now apply IH.
  - now inversion Hm.
Qed.
End ArithmeticMore.

(** X1.  [dictionary_mult] never raises and keeps the keys in their order;
    each value is multiplied on the right by [c]; a key the dictionary does
    not have stays absent. *)
Theorem dictionary_mult_entries :
  forall (Sc V : Type) (HS : Scalar Sc) (HV : Value Sc V)
         (dictionary : dict V) (c : Sc),
    dict_wf dictionary ->
    keys (dictionary_mult dictionary c) = keys dictionary
    /\ dict_wf (dictionary_mult dictionary c)
    /\ (forall key val, dict_get dictionary key = Some val ->
          dict_get (dictionary_mult dictionary c) key = Some (vmulr val c))
    /\ (forall key, dict_get dictionary key = None ->
          dict_get (dictionary_mult dictionary c) key = None).
Proof.
  intros Sc V HS HV dictionary c Hwf.
  pose proof (dictionary_mult_keys c Hwf) as Hkeys.
  split; [assumption|]. split; [unfold dict_wf; now rewrite Hkeys|].
  split; intros key; [intros val|]; intros Hget;
    rewrite dictionary_mult_get, Hget by assumption; reflexivity.
Qed.

Lemma dictionary_mult_entries_witness :
  dict_wf [("w", Q2Qc 2); ("b", Q2Qc 3)]
  /\ keys (dictionary_mult [("w", Q2Qc 2); ("b", Q2Qc 3)] (Q2Qc 5))
     = ["w"; "b"]
  /\ dict_get (dictionary_mult [("w", Q2Qc 2); ("b", Q2Qc 3)] (Q2Qc 5)) "b"
     = Some (vmulr (Q2Qc 3) (Q2Qc 5)).
Proof.
  split; [solve_wf|].
  destruct (@dictionary_mult_entries Qc Qc _ _
              [("w", Q2Qc 2); ("b", Q2Qc 3)] (Q2Qc 5) ltac:(solve_wf))
    as (Hkeys & _ & Hget & _).
  split; [exact Hkeys | exact (Hget "b" (Q2Qc 3) eq_refl)].
Defined.

(** X2.  [dictionary_add] stops at the first key of [dict1], in iteration
    order, that [dict2] does not have, and raises [KeyError] for that key;
    it returns a dictionary exactly when there is no such key. *)
Theorem dictionary_add_first_missing :
  forall (Sc V : Type) (HV : Value Sc V) (dict1 dict2 : dict V),
    (forall key, first_missing dict1 dict2 = Some key ->
       dictionary_add dict1 dict2 = Raise (KeyError key))
    /\ (dict_wf dict1 -> first_missing dict1 dict2 = None ->
        exists sum, dictionary_add dict1 dict2 = Ok sum
                    /\ keys sum = keys dict1).
Proof.
  intros Sc V HV dict1 dict2. split.
  - intros key Hm. unfold dictionary_add, dict_comp_r.
    now apply dictionary_add_loop_missing.
  - intros Hwf Hnone. apply first_missing_None in Hnone.
    destruct (dictionary_add_ok dict2 Hwf Hnone) as (sum & Hadd & Hkeys & _).
    eauto.
Qed.

Lemma dictionary_add_first_missing_witness :
  first_missing [("w", Q2Qc 1); ("u", Q2Qc 2); ("v", Q2Qc 3)]
                [("w", Q2Qc 5)] = Some "u"
  /\ dictionary_add [("w", Q2Qc 1); ("u", Q2Qc 2); ("v", Q2Qc 3)]
                    [("w", Q2Qc 5)]
     = Raise (KeyError "u")
  /\ dict_wf [("w", Q2Qc 1)]
  /\ first_missing [("w", Q2Qc 1)] [("w", Q2Qc 5)] = None
  /\ exists sum, dictionary_add [("w", Q2Qc 1)] [("w", Q2Qc 5)] = Ok sum
                 /\ keys sum = ["w"].
Proof.
  split; [reflexivity|]. split.
  - exact (proj1 (@dictionary_add_first_missing Qc Qc _
                    [("w", Q2Qc 1); ("u", Q2Qc 2); ("v", Q2Qc 3)]
                    [("w", Q2Qc 5)]) "u" eq_refl).
  - split; [solve_wf|]. split; [reflexivity|].
    exact (proj2 (@dictionary_add_first_missing Qc Qc _
                    [("w", Q2Qc 1)] [("w", Q2Qc 5)])
                 ltac:(solve_wf) eq_refl).
Defined.

(** X3.  On two dictionaries with the same key set, [dictionary_add] can be
    called either way round when [+] on the values is commutative: both
    calls return, the results are equal as dictionaries, and each result
    lists the keys in the order of its first operand. *)
Theorem dictionary_add_comm :
  forall (Sc V : Type) (HV : Value Sc V) (dict1 dict2 : dict V),
    (forall a b : V, vadd a b = vadd b a) ->
    dict_wf dict1 -> dict_wf dict2 ->
    (forall key, In key (keys dict1) <-> In key (keys dict2)) ->
    exists sum12 sum21,
      dictionary_add dict1 dict2 = Ok sum12
      /\ dictionary_add dict2 dict1 = Ok sum21
      /\ keys sum12 = keys dict1
      /\ keys sum21 = keys dict2
      /\ dict_eq sum12 sum21.
Proof.
  intros Sc V HV dict1 dict2 Hcomm Hwf1 Hwf2 Hsame.
  destruct (dictionary_add_ok dict2 Hwf1) as (sum12 & H12 & Hk12 & Hg12).
  { intros key Hkey. now apply Hsame. }
  destruct (dictionary_add_ok dict1 Hwf2) as (sum21 & H21 & Hk21 & Hg21).
  { intros key Hkey. now apply Hsame. }
  exists sum12, sum21. repeat split; auto.
  intros key. destruct (dict_get dict1 key) as [a|] eqn:Ha.
  - destruct (Hg12 key a Ha) as (b & Hb & Hs12).
    destruct (Hg21 key b Hb) as (a' & Ha' & Hs21).
    rewrite Hs12, Hs21. rewrite Ha in Ha'. inversion Ha'; subst.
    now rewrite Hcomm.
  - apply dict_get_None in Ha.
    assert (H1 : dict_get sum12 key = None)
      by (apply dict_get_None; now rewrite Hk12).
    assert (H2 : dict_get sum21 key = None)
      by (apply dict_get_None; rewrite Hk21; intros Hin; apply Ha;
          now apply Hsame).
    congruence.
Qed.

Lemma dictionary_add_comm_witness :
  dict_wf [("w", Q2Qc 1); ("b", Q2Qc 2)]
  /\ dict_wf [("b", Q2Qc 3); ("w", Q2Qc 4)]
  /\ exists sum12 sum21,
      dictionary_add [("w", Q2Qc 1); ("b", Q2Qc 2)]
                     [("b", Q2Qc 3); ("w", Q2Qc 4)] = Ok sum12
      /\ dictionary_add [("b", Q2Qc 3); ("w", Q2Qc 4)]
                        [("w", Q2Qc 1); ("b", Q2Qc 2)] = Ok sum21
      /\ keys sum12 = ["w"; "b"]
      /\ keys sum21 = ["b"; "w"]
      /\ dict_eq sum12 sum21.
Proof.
  split; [solve_wf|]. split; [solve_wf|].
  apply (@dictionary_add_comm Qc Qc _
           [("w", Q2Qc 1); ("b", Q2Qc 2)] [("b", Q2Qc 3); ("w", Q2Qc 4)]).
  - intros a b. apply Qcplus_comm.
  - solve_wf.
  - solve_wf.
  - intros key. simpl. tauto.
Defined.

(** X4.  Perturbing and unperturbing is the identity in exact arithmetic:
    when [h] has every key of [params] and each [h[k]] has the shape of
    [params[k]], adding [h] to [params] and then adding
    [dictionary_mult h (-1)] gives back a dictionary with the keys of
    [params], in order, and the values of [params]. *)
Theorem perturb_unperturb :
  forall (Sc V : Type) (HS : Scalar Sc) (HV : Value Sc V)
         (SL : @ScalarLaws Sc HS) (ShL : @ShapedLaws Sc V HS HV)
         (params h : dict V),
    dict_wf params -> dict_wf h ->
    incl (keys params) (keys h) ->
    (forall key p hk,
        dict_get params key = Some p -> dict_get h key = Some hk ->
        shape hk = shape p) ->
    exists perturbed restored,
      dictionary_add params h = Ok perturbed
      /\ dictionary_add perturbed (dictionary_mult h (sneg sone)) = Ok restored
      /\ keys restored = keys params
      /\ dict_eq restored params.
Proof.
  intros Sc V HS HV SL ShL params h Hwf Hwfh Hincl Hshape.
  destruct (dictionary_add_ok h Hwf Hincl) as (perturbed & Hadd & Hkp & Hgp).
  assert (Hwfp : dict_wf perturbed) by (unfold dict_wf; now rewrite Hkp).
  destruct (dictionary_add_ok (dictionary_mult h (sneg sone)) Hwfp)
    as (restored & Hback & Hkr & Hgr).
  { rewrite Hkp, dictionary_mult_keys by assumption. exact Hincl. }
  exists perturbed, restored. split; [assumption|]. split; [assumption|].
  split; [congruence|].
  intros key. destruct (dict_get params key) as [p|] eqn:Hp.
  - destruct (Hgp key p Hp) as (hk & Hhk & Hsum).
    destruct (Hgr key _ Hsum) as (o & Ho & Hrest).
    rewrite dictionary_mult_get, Hhk in Ho by assumption.
    simpl in Ho. inversion Ho; subst. rewrite Hrest. f_equal.
    rewrite shaped_vmulr_vmull, <- shaped_vadd_assoc.
    rewrite <- (shaped_vmull_1_l hk) at 1. rewrite <- shaped_vmull_sadd.
    replace (sadd sone (sneg sone)) with (szero : Sc).
    + rewrite shaped_vadd_comm. apply shaped_vadd_0_l. eauto.
    + pose proof (F_R scalar_field) as Hring.
      symmetry. apply (Ropp_def Hring).
  - apply dict_get_None. rewrite Hkr, Hkp. now apply dict_get_None.
Qed.

(** Two entries of different shapes; [h] has one key more. *)
Lemma perturb_unperturb_witness :
  dict_wf [("w", [Q2Qc 10; Q2Qc 20]); ("b", [Q2Qc 30])]
  /\ dict_wf [("b", [Q2Qc 1]); ("w", [Q2Qc 2; Q2Qc 3]); ("extra", [])]
  /\ incl (keys [("w", [Q2Qc 10; Q2Qc 20]); ("b", [Q2Qc 30])])
          (keys [("b", [Q2Qc 1]); ("w", [Q2Qc 2; Q2Qc 3]); ("extra", [])])
  /\ exists perturbed restored,
      dictionary_add [("w", [Q2Qc 10; Q2Qc 20]); ("b", [Q2Qc 30])]
                     [("b", [Q2Qc 1]); ("w", [Q2Qc 2; Q2Qc 3]); ("extra", [])]
      = Ok perturbed
      /\ dictionary_add perturbed
           (dictionary_mult
              [("b", [Q2Qc 1]); ("w", [Q2Qc 2; Q2Qc 3]); ("extra", [])]
              (sneg sone))
         = Ok restored
      /\ keys restored = keys [("w", [Q2Qc 10; Q2Qc 20]); ("b", [Q2Qc 30])]
      /\ dict_eq restored [("w", [Q2Qc 10; Q2Qc 20]); ("b", [Q2Qc 30])].
Proof.
  assert (Hincl : incl (keys [("w", [Q2Qc 10; Q2Qc 20]); ("b", [Q2Qc 30])])
                       (keys [("b", [Q2Qc 1]); ("w", [Q2Qc 2; Q2Qc 3]);
                              ("extra", [])]))
    by (intros k Hk; simpl in *; tauto).
  assert (Hshape : forall key (p hk : list Qc),
             dict_get [("w", [Q2Qc 10; Q2Qc 20]); ("b", [Q2Qc 30])] key
             = Some p ->
             dict_get [("b", [Q2Qc 1]); ("w", [Q2Qc 2; Q2Qc 3]);
                       ("extra", [])] key = Some hk ->
             shape hk = shape p).
  { intros key p hk Hp Hhk.
    pose proof (dict_get_Some_In _ _ Hp) as Hin. simpl in Hin.
    destruct Hin as [<-|[<-|[]]]; cbn in Hp, Hhk;
      inversion Hp; inversion Hhk; reflexivity. }
  split; [solve_wf|]. split; [solve_wf|]. split; [exact Hincl|].
  exact (@perturb_unperturb Qc (list Qc) _ _ Qc_ScalarLaws QcVec_ShapedLaws
           [("w", [Q2Qc 10; Q2Qc 20]); ("b", [Q2Qc 30])]
           [("b", [Q2Qc 1]); ("w", [Q2Qc 2; Q2Qc 3]); ("extra", [])]
           ltac:(solve_wf) ltac:(solve_wf) Hincl Hshape).
Defined.

(** X5.  In exact arithmetic [dictionary_mult] is an action of the scalars,
    on dictionaries whose entries may have different shapes: multiplying by
    [c] and then by [e] is multiplying by [c * e], and multiplying by one
    returns the dictionary itself. *)
Theorem dictionary_mult_action :
  forall (Sc V : Type) (HS : Scalar Sc) (HV : Value Sc V)
         (SL : @ScalarLaws Sc HS) (ShL : @ShapedLaws Sc V HS HV)
         (dictionary : dict V) (c e : Sc),
    dict_wf dictionary ->
    dictionary_mult (dictionary_mult dictionary c) e
    = dictionary_mult dictionary (smul c e)
    /\ dictionary_mult dictionary sone = dictionary.
Proof.
  intros Sc V HS HV SL ShL dictionary c e Hwf.
  assert (Hwfc : dict_wf (dictionary_mult dictionary c))
    by (unfold dict_wf; now rewrite dictionary_mult_keys).
  split.
  - rewrite (dictionary_mult_wf e Hwfc).
    rewrite !dictionary_mult_wf by assumption.
    rewrite map_map. apply map_ext. intros [key val]. simpl. f_equal.
    rewrite !shaped_vmulr_vmull, shaped_vmull_vmull. f_equal.
    apply (Rmul_comm (F_R scalar_field)).
  - rewrite dictionary_mult_wf by assumption.
    rewrite <- (map_id dictionary) at 2. apply map_ext.
    intros [key val]. simpl. f_equal.
    now rewrite shaped_vmulr_vmull, shaped_vmull_1_l.
Qed.

(** Two entries of different shapes; [3 * 5 = 15]. *)
Lemma dictionary_mult_action_witness :
  dict_wf [("w", [Q2Qc 2; Q2Qc 4]); ("b", [Q2Qc 3])]
  /\ dictionary_mult (dictionary_mult [("w", [Q2Qc 2; Q2Qc 4]); ("b", [Q2Qc 3])]
                                      (Q2Qc 3)) (Q2Qc 5)
     = dictionary_mult [("w", [Q2Qc 2; Q2Qc 4]); ("b", [Q2Qc 3])]
                       (smul (Q2Qc 3) (Q2Qc 5))
  /\ dictionary_mult [("w", [Q2Qc 2; Q2Qc 4]); ("b", [Q2Qc 3])] sone
     = [("w", [Q2Qc 2; Q2Qc 4]); ("b", [Q2Qc 3])].
Proof.
  split; [solve_wf|].
  exact (@dictionary_mult_action Qc (list Qc) _ _ Qc_ScalarLaws
           QcVec_ShapedLaws [("w", [Q2Qc 2; Q2Qc 4]); ("b", [Q2Qc 3])]
           (Q2Qc 3) (Q2Qc 5) ltac:(solve_wf)).
Defined.

(** ** The update rule: errors *)

(** X6.  When [scale ** 2] is zero, [update_weights] raises
    [ZeroDivisionError] as soon as the gradient has one entry, whatever
    [params] holds (a missing key is never reached); on the empty gradient
    no division is made and the empty dictionary is returned. *)
Theorem update_weights_zero_scale :
  forall (Sc V : Type) (HS : Scalar Sc) (HV : Value Sc V)
         (gradient params : dict V) (scale lr square : Sc),
    spower scale 2 = Ok square ->
    seqb square szero = true ->
    update_weights gradient params scale lr
    = match gradient with
      | [] => Ok []
      | _ :: _ => Raise ZeroDivisionError
      end.
Proof.
  intros Sc V HS HV gradient params scale lr square Hp Hs.
  destruct gradient as [|item rest]; [reflexivity|].
  eapply update_weights_zero_division; eauto. discriminate.
Qed.

Lemma update_weights_zero_scale_witness :
  spower (Q2Qc 0) 2 = Ok (Qcpower (Q2Qc 0) 2)
  /\ seqb (Qcpower (Q2Qc 0) 2) szero = true
  /\ update_weights [("w", Q2Qc 2)] [("b", Q2Qc 1)] (Q2Qc 0) (Q2Qc 0.1)
     = Raise ZeroDivisionError
  /\ update_weights (V := Qc) [] [("b", Q2Qc 1)] (Q2Qc 0) (Q2Qc 0.1) = Ok [].
Proof.
  split; [reflexivity|]. split; [reflexivity|]. split.
  - exact (@update_weights_zero_scale Qc Qc _ _
             [("w", Q2Qc 2)] [("b", Q2Qc 1)] (Q2Qc 0) (Q2Qc 0.1)
             (Qcpower (Q2Qc 0) 2) eq_refl eq_refl).
  - exact (@update_weights_zero_scale Qc Qc _ _
             [] [("b", Q2Qc 1)] (Q2Qc 0) (Q2Qc 0.1)
             (Qcpower (Q2Qc 0) 2) eq_refl eq_refl).
Defined.

(** X7.  On a non-empty gradient [update_weights] evaluates [scale ** 2]
    before it reads any key.  If the power raises (a Python [float] raises
    [OverflowError] when the square is out of range) that exception is what
    [update_weights] raises, whatever [params] holds.  If the power is a
    nonzero value, [update_weights] raises [KeyError] for the first key of
    the gradient, in iteration order, that [params] does not have. *)
Theorem update_weights_missing_key :
  forall (Sc V : Type) (HS : Scalar Sc) (HV : Value Sc V)
         (gradient params : dict V) (scale lr : Sc),
    (forall e, spower scale 2 = Raise e -> gradient <> [] ->
       update_weights gradient params scale lr = Raise e)
    /\ (forall square key,
           dict_wf gradient ->
           spower scale 2 = Ok square ->
           seqb square szero = false ->
           first_missing gradient params = Some key ->
           update_weights gradient params scale lr = Raise (KeyError key)).
Proof.
  intros Sc V HS HV gradient params scale lr. split.
  - intros e Hp Hne. now apply update_weights_power_raises.
  - intros square key Hwf Hp Hs Hm.
    erewrite update_weights_wf by eassumption.
    unfold dictionary_add, dict_comp_r.
    apply dictionary_add_loop_missing.
    now rewrite (first_missing_map
                   (fun kv => vmull (sdiv (sneg lr) square) (snd kv))).
Qed.

(** A missing key at scale 1 on rationals; the same missing key at the
    binary64 scale [2 ** 600], whose square is out of range. *)
Lemma update_weights_missing_key_witness :
  (dict_wf [("w", Q2Qc 2); ("u", Q2Qc 3); ("v", Q2Qc 4)]
   /\ spower (Q2Qc 1) 2 = Ok (Qcpower (Q2Qc 1) 2)
   /\ seqb (Qcpower (Q2Qc 1) 2) szero = false
   /\ first_missing [("w", Q2Qc 2); ("u", Q2Qc 3); ("v", Q2Qc 4)]
                    [("w", Q2Qc 10)] = Some "u"
   /\ update_weights [("w", Q2Qc 2); ("u", Q2Qc 3); ("v", Q2Qc 4)]
                     [("w", Q2Qc 10)] (Q2Qc 1) (Q2Qc 0.1)
      = Raise (KeyError "u"))
  /\ (spower 0x1p600%float 2 = Raise OverflowError
      /\ [("w", 2%float); ("u", 3%float)] <> []
      /\ update_weights [("w", 2%float); ("u", 3%float)] [("w", 10%float)]
                        0x1p600%float 0x1.999999999999ap-4%float
         = Raise OverflowError).
Proof.
  split.
  - split; [solve_wf|]. split; [reflexivity|]. split; [reflexivity|].
    split; [reflexivity|].
    exact (proj2 (@update_weights_missing_key Qc Qc _ _
                    [("w", Q2Qc 2); ("u", Q2Qc 3); ("v", Q2Qc 4)]
                    [("w", Q2Qc 10)] (Q2Qc 1) (Q2Qc 0.1))
                 (Qcpower (Q2Qc 1) 2) "u" ltac:(solve_wf)
                 eq_refl eq_refl eq_refl).
  - assert (Hpow : spower 0x1p600%float 2 = Raise OverflowError)
      by (vm_compute; reflexivity).
    assert (Hne : [("w", 2%float); ("u", 3%float)] <> [])
      by discriminate.
    split; [exact Hpow|]. split; [exact Hne|].
    exact (proj1 (@update_weights_missing_key float float _ _
                    [("w", 2%float); ("u", 3%float)] [("w", 10%float)]
                    0x1p600%float 0x1.999999999999ap-4%float)
                 OverflowError Hpow Hne).
Defined.

(** ** The estimator: outcomes, calls and the training step *)

Section OutcomeFacts.
Context {Sc V : Type} `{Scalar Sc} `{Value Sc V}.
Context {W Inputs : Type}.
Implicit Types (sampler : Distribution W) (st : state W Inputs).
Implicit Types (forward_pass : ForwardPass (Sc := Sc) (V := V) W Inputs).

(** A run with a valid method, spelled out: the perturbation, the two points
    of evaluation and the two losses. *)
Lemma compute_gradient_valid_run forward_pass inputs params sampler method st :
  dict_wf params ->
  method = "ffd" \/ method = "cfd" ->
  exists h w0 point1 point2 w1 w2,
    draws sampler params (world st) = (h, w0)
    /\ keys h = keys params
    /\ compute_gradient forward_pass inputs params sampler method st
       = (Ok (dictionary_mult
                h (ssub (fst (forward_pass inputs point2 w1))
                        (fst (forward_pass inputs point1
                                           (if String.eqb method "ffd"
                                            then w0 else w2))))),
          mkState (snd (forward_pass inputs
                                     (if String.eqb method "ffd"
                                      then point2 else point1)
                                     (if String.eqb method "ffd"
                                      then w1 else w2)))
                  (trace st ++ sample_events params
                   ++ (if String.eqb method "ffd"
                       then [EvForward inputs point1; EvForward inputs point2]
                       else [EvForward inputs point2;
                             EvForward inputs point1]))).
Proof.
  intros Hwf Hmethod.
  destruct (draws sampler params (world st)) as [h w0] eqn:Hd.
  assert (Hkeys : keys h = keys params)
    by (change h with (fst (h, w0)); rewrite <- Hd; apply draws_keys).
  assert (Hwfh : dict_wf h) by (unfold dict_wf; now rewrite Hkeys).
  destruct (dictionary_add_same_keys h Hwf Hkeys) as (perturbed & Hadd & _).
  destruct (dictionary_add_same_keys (dictionary_mult h (sneg sone)) Hwf)
    as (neg_perturbed & Hneg & _).
  { now rewrite dictionary_mult_keys. }
  destruct Hmethod as [-> | ->].
  - destruct (forward_pass inputs params w0) as [clean_loss w1] eqn:Hc.
    destruct (forward_pass inputs perturbed w1) as [perturbed_loss w2] eqn:Hp.
    exists h, w0, params, perturbed, w1, w2.
    split; [reflexivity|]. split; [assumption|].
    erewrite compute_gradient_ffd_run by eassumption.
    simpl. now rewrite Hc, Hp.
  - destruct (forward_pass inputs perturbed w0) as [perturbed_loss w1] eqn:Hp.
    destruct (forward_pass inputs neg_perturbed w1)
      as [neg_perturbed_loss w2] eqn:Hn.
    exists h, w0, neg_perturbed, perturbed, w0, w1.
    split; [reflexivity|]. split; [assumption|].
    erewrite compute_gradient_cfd_run by eassumption.
    simpl. now rewrite Hp, Hn.
Qed.

Lemma method_cases (method : string) :
  (method = "ffd" \/ method = "cfd")
  \/ (method <> "ffd" /\ method <> "cfd").
Proof.
  destruct (string_dec method "ffd"); [now left; left|].
  destruct (string_dec method "cfd"); [now left; right|].
  now right.
Qed.

Lemma compute_gradient_outcome_run forward_pass inputs params sampler method st :
  dict_wf params ->
  exists added,
    trace (snd (compute_gradient forward_pass inputs params sampler method st))
    = trace st ++ sample_events params ++ added
    /\ forward_calls added = added
    /\ match fst (compute_gradient forward_pass inputs params sampler
                                   method st) with
       | Ok gradient =>
           (method = "ffd" \/ method = "cfd")
           /\ keys gradient = keys params
           /\ List.length added = 2%nat
       | Raise e =>
           e = ValueError invalid_option_msg
           /\ method <> "ffd" /\ method <> "cfd"
           /\ added = []
       end.
Proof.
  intros Hwf. destruct (method_cases method) as [Hvalid | [Hf Hc]].
  - destruct (compute_gradient_valid_run forward_pass inputs sampler st
                                          Hwf Hvalid)
      as (h & w0 & p1 & p2 & w1 & w2 & Hd & Hkeys & Hrun).
    rewrite Hrun. simpl.
    assert (Hwfh : dict_wf h) by (unfold dict_wf; now rewrite Hkeys).
    eexists. split; [reflexivity|].
    split; [destruct (String.eqb method "ffd"); reflexivity|].
    split; [assumption|].
    split; [now rewrite dictionary_mult_keys|].
    destruct (String.eqb method "ffd"); reflexivity.
  - rewrite compute_gradient_invalid_run by assumption. simpl.
    exists []. rewrite app_nil_r. repeat split; auto.
Qed.
End OutcomeFacts.

(** X8.  [compute_gradient] on a dictionary returns a gradient exactly when
    the method is ["ffd"] or ["cfd"], and then the gradient has the keys of
    [params]; otherwise it raises the [ValueError].  It never raises
    [KeyError].  Whatever the method, the sampler is called once per key
    first; after that come two forward-pass calls for a valid method and
    none otherwise. *)
Theorem compute_gradient_outcome :
  forall (Sc V : Type) (HS : Scalar Sc) (HV : Value Sc V) (W Inputs : Type)
         (forward_pass : ForwardPass W Inputs) (inputs : Inputs)
         (params : dict V) (sampler : Distribution W) (method : string)
         (st : state W Inputs),
    dict_wf params ->
    exists added,
      trace (snd (compute_gradient forward_pass inputs params sampler
                                   method st))
      = trace st ++ sample_events params ++ added
      /\ forward_calls added = added
      /\ match fst (compute_gradient forward_pass inputs params sampler
                                     method st) with
         | Ok gradient =>
             (method = "ffd" \/ method = "cfd")
             /\ keys gradient = keys params
             /\ List.length added = 2%nat
         | Raise e =>
             e = ValueError invalid_option_msg
             /\ method <> "ffd" /\ method <> "cfd"
             /\ added = []
         end.
Proof.
  intros. now apply compute_gradient_outcome_run.
Qed.

Lemma compute_gradient_outcome_witness :
  dict_wf [("w", [Q2Qc 7; Q2Qc 8]); ("b", [Q2Qc 1])]
  /\ exists added,
      trace (snd (compute_gradient (stub_forward_pass (Q2Qc 5) (Q2Qc 1)) tt
                    [("w", [Q2Qc 7; Q2Qc 8]); ("b", [Q2Qc 1])]
                    counting_sampler "cfd" (mkState 0%nat [])))
      = [] ++ sample_events [("w", [Q2Qc 7; Q2Qc 8]); ("b", [Q2Qc 1])]
           ++ added
      /\ List.length added = 2%nat.
Proof.
  split; [solve_wf|].
  destruct (@compute_gradient_outcome Qc (list Qc) _ _ nat unit
              (stub_forward_pass (Q2Qc 5) (Q2Qc 1)) tt
              [("w", [Q2Qc 7; Q2Qc 8]); ("b", [Q2Qc 1])]
              counting_sampler "cfd" (mkState 0%nat []) ltac:(solve_wf))
    as (added & Htrace & _ & Hout).
  exists added. split; [exact Htrace|].
  destruct (fst (compute_gradient (stub_forward_pass (Q2Qc 5) (Q2Qc 1)) tt
                   [("w", [Q2Qc 7; Q2Qc 8]); ("b", [Q2Qc 1])]
                   counting_sampler "cfd" (mkState 0%nat []))).
  - exact (proj2 (proj2 Hout)).
  - destruct Hout as (_ & _ & Hc & _). exfalso. now apply Hc.
Defined.

(** X9.  [compute_gradient_vector] has the same outcomes: a gradient with
    the keys of [params] exactly for ["ffd"] and ["cfd"], the [ValueError]
    otherwise, never a [KeyError]; one sampler call per key first, then two
    forward-pass calls or none. *)
Theorem compute_gradient_vector_outcome :
  forall (Sc V : Type) (HS : Scalar Sc) (HV : Value Sc V) (W Inputs : Type)
         (forward_pass : ForwardPass W Inputs) (inputs : Inputs)
         (params : dict V) (sampler : Distribution W) (method : string)
         (st : state W Inputs),
    dict_wf params ->
    exists added,
      trace (snd (compute_gradient_vector forward_pass inputs params sampler
                                          method st))
      = trace st ++ sample_events params ++ added
      /\ forward_calls added = added
      /\ match fst (compute_gradient_vector forward_pass inputs params
                                            sampler method st) with
         | Ok gradient =>
             (method = "ffd" \/ method = "cfd")
             /\ keys gradient = keys params
             /\ List.length added = 2%nat
         | Raise e =>
             e = ValueError invalid_option_msg
             /\ method <> "ffd" /\ method <> "cfd"
             /\ added = []
         end.
Proof.
  intros Sc V HS HV W Inputs forward_pass inputs params sampler method st Hwf.
  change (compute_gradient_vector forward_pass inputs params sampler method st)
    with (compute_gradient forward_pass inputs params sampler method st).
  now apply compute_gradient_outcome_run.
Qed.

Lemma compute_gradient_vector_outcome_witness :
  dict_wf [("w", [Q2Qc 7; Q2Qc 8])]
  /\ exists added,
      trace (snd (compute_gradient_vector
                    (stub_forward_pass (Q2Qc 5) (Q2Qc 1)) tt
                    [("w", [Q2Qc 7; Q2Qc 8])]
                    counting_sampler "sgd" (mkState 0%nat [])))
      = [] ++ sample_events [("w", [Q2Qc 7; Q2Qc 8])] ++ added
      /\ added = [].
Proof.
  split; [solve_wf|].
  destruct (@compute_gradient_vector_outcome Qc (list Qc) _ _ nat unit
              (stub_forward_pass (Q2Qc 5) (Q2Qc 1)) tt
              [("w", [Q2Qc 7; Q2Qc 8])]
              counting_sampler "sgd" (mkState 0%nat []) ltac:(solve_wf))
    as (added & Htrace & _ & Hout).
  exists added. split; [exact Htrace|].
  destruct (fst (compute_gradient_vector
                   (stub_forward_pass (Q2Qc 5) (Q2Qc 1)) tt
                   [("w", [Q2Qc 7; Q2Qc 8])]
                   counting_sampler "sgd" (mkState 0%nat []))).
  - destruct Hout as ([Hm|Hm] & _); discriminate Hm.
  - exact (proj2 (proj2 (proj2 Hout))).
Defined.

(** X10.  On the empty [params] dictionary a valid method still evaluates
    the forward pass twice, both times at the empty dictionary, calls the
    sampler never, and returns the empty gradient. *)
Theorem compute_gradient_empty_params :
  forall (Sc V : Type) (HS : Scalar Sc) (HV : Value Sc V) (W Inputs : Type)
         (forward_pass : ForwardPass W Inputs) (inputs : Inputs)
         (sampler : Distribution W) (method : string) (st : state W Inputs),
    method = "ffd" \/ method = "cfd" ->
    compute_gradient forward_pass inputs [] sampler method st
    = (Ok [],
       mkState (snd (forward_pass inputs []
                       (snd (forward_pass inputs [] (world st)))))
               (trace st ++ [EvForward inputs []; EvForward inputs []])).
Proof.
  intros Sc V HS HV W Inputs forward_pass inputs sampler method st [-> | ->];
    unfold compute_gradient, bind, sample_perturbation, call_forward, lift,
      ret; simpl;
    destruct (forward_pass inputs [] (world st)) as [l1 w1]; simpl;
    destruct (forward_pass inputs [] w1) as [l2 w2]; simpl;
    now rewrite <- app_assoc.
Qed.

Lemma compute_gradient_empty_params_witness :
  ("cfd" = "ffd" \/ "cfd" = "cfd")
  /\ compute_gradient (V := list Qc) (stub_forward_pass (Q2Qc 5) (Q2Qc 1)) tt
                      [] counting_sampler "cfd" (mkState 0%nat [])
     = (Ok [], mkState 2%nat [EvForward tt []; EvForward tt []]).
Proof.
  split; [now right|].
  exact (@compute_gradient_empty_params Qc (list Qc) _ _ nat unit
           (stub_forward_pass (Q2Qc 5) (Q2Qc 1)) tt counting_sampler "cfd"
           (mkState 0%nat []) (or_intror eq_refl)).
Defined.

Section StepFacts.
Context {Sc V : Type} `{Scalar Sc} `{Value Sc V}.
Context {W Inputs : Type}.
Implicit Types (sampler : Distribution W) (st : state W Inputs).
Implicit Types (forward_pass : ForwardPass (Sc := Sc) (V := V) W Inputs).

Lemma draws_shapes sampler (params : dict V) :
  returns_requested_shape sampler ->
  forall (w : W) key p hk,
    dict_get params key = Some p ->
    dict_get (fst (draws sampler params w)) key = Some hk ->
    shape hk = shape p.
Proof.
  intros Hshape.
  induction params as [|[k val] rest IH]; simpl; intros w key p hk Hp Hhk.
  - discriminate.
  - pose proof (Hshape (shape val) w) as Hx.
    destruct (sample sampler (shape val) w) as [x w1].
    specialize (IH w1 key p hk).
    destruct (draws sampler rest w1) as [r w2]. simpl in *.
    destruct (String.eqb_spec k key) as [->|Hne].
    + inversion Hp; inversion Hhk; subst. assumption.
    + auto.
Qed.

Lemma training_step_run forward_pass inputs params sampler method st
      (scale lr square : Sc) :
  dict_wf params ->
  method = "ffd" \/ method = "cfd" ->
  spower scale 2 = Ok square ->
  seqb square szero = false ->
  exists gradient st' updated,
    compute_gradient forward_pass inputs params sampler method st
    = (Ok gradient, st')
    /\ update_weights gradient params scale lr = Ok updated
    /\ keys updated = keys params
    /\ forall key p, dict_get params key = Some p ->
         exists gk, dict_get gradient key = Some gk
                    /\ dict_get updated key
                       = Some (vadd (vmull (sdiv (sneg lr) square) gk) p).
Proof.
  intros Hwf Hvalid Hp Hs.
  destruct (compute_gradient_valid_run forward_pass inputs sampler st
                                        Hwf Hvalid)
    as (h & w0 & p1 & p2 & w1 & w2 & _ & Hkeys & Hrun).
  assert (Hwfh : dict_wf h) by (unfold dict_wf; now rewrite Hkeys).
  match type of Hrun with _ = (Ok ?g, ?s) => set (gradient := g) in *;
                                             set (st' := s) in * end.
  assert (Hkg : keys gradient = keys params)
    by (unfold gradient; now rewrite dictionary_mult_keys).
  destruct (@update_weights_entries Sc V _ _ gradient params scale lr square)
    as (updated & Hup & Hku & Hget); auto.
  { unfold dict_wf. now rewrite Hkg. }
  { rewrite Hkg. apply incl_refl. }
  exists gradient, st', updated. split; [assumption|]. split; [assumption|].
  split; [congruence|].
  intros key p Hpk.
  destruct (dict_get_In gradient key) as [gk Hgk].
  { rewrite Hkg. eapply dict_get_Some_In; eauto. }
  destruct (Hget key gk Hgk) as (p' & Hp' & Hu).
  rewrite Hpk in Hp'. inversion Hp'; subst. eauto.
Qed.
End StepFacts.

(** X11.  One training step goes through: for a valid method and a [scale]
    whose square [scale ** 2] evaluates to a nonzero value, the gradient
    [compute_gradient] returns for [params] is accepted by [update_weights]
    with the same [params]: no [KeyError], no [ZeroDivisionError]; the
    updated dictionary has the keys of [params] and each entry is
    [(-lr / scale ** 2) * gradient[k] + params[k]].  In exact arithmetic
    that holds for every nonzero [scale], and the entry is
    [params[k] - (lr / (scale * scale)) * gradient[k]]. *)
Theorem training_step :
  (forall (Sc V : Type) (HS : Scalar Sc) (HV : Value Sc V) (W Inputs : Type)
          (forward_pass : ForwardPass W Inputs) (inputs : Inputs)
          (params : dict V) (sampler : Distribution W) (method : string)
          (st : state W Inputs) (scale lr square : Sc),
      dict_wf params ->
      method = "ffd" \/ method = "cfd" ->
      spower scale 2 = Ok square ->
      seqb square szero = false ->
      exists gradient st' updated,
        compute_gradient forward_pass inputs params sampler method st
        = (Ok gradient, st')
        /\ update_weights gradient params scale lr = Ok updated
        /\ keys updated = keys params
        /\ forall key p, dict_get params key = Some p ->
             exists gk, dict_get gradient key = Some gk
                        /\ dict_get updated key
                           = Some (vadd (vmull (sdiv (sneg lr) square) gk) p))
  /\ (forall (Sc V : Type) (HS : Scalar Sc) (HV : Value Sc V)
             (SL : @ScalarLaws Sc HS) (ShL : @ShapedLaws Sc V HS HV)
             (W Inputs : Type)
             (forward_pass : ForwardPass W Inputs) (inputs : Inputs)
             (params : dict V) (sampler : Distribution W) (method : string)
             (st : state W Inputs) (scale lr : Sc),
         dict_wf params ->
         method = "ffd" \/ method = "cfd" ->
         scale <> szero ->
         exists gradient st' updated,
           compute_gradient forward_pass inputs params sampler method st
           = (Ok gradient, st')
           /\ update_weights gradient params scale lr = Ok updated
           /\ keys updated = keys params
           /\ forall key p, dict_get params key = Some p ->
                exists gk,
                  dict_get gradient key = Some gk
                  /\ dict_get updated key
                     = Some (vsub p (vmull (sdiv lr (smul scale scale)) gk))).
Proof.
  split.
  - intros. now apply training_step_run.
  - intros Sc V HS HV SL ShL W Inputs forward_pass inputs params sampler
           method st scale lr Hwf Hvalid Hs.
    destruct (@training_step_run Sc V HS HV W Inputs forward_pass inputs
                params sampler method st scale lr (smul scale scale)
                Hwf Hvalid (spower_square scale) (square_nonzero Hs))
      as (gradient & st' & updated & Hrun & Hup & Hkeys & Hget).
    exists gradient, st', updated.
    split; [assumption|]. split; [assumption|]. split; [assumption|].
    intros key p Hp. destruct (Hget key p Hp) as (gk & Hgk & Hu).
    exists gk. split; [assumption|]. now rewrite Hu, update_entry.
Qed.

(** Two entries of different shapes, [scale = 2]: the square is 4. *)
Lemma training_step_witness :
  dict_wf [("w", [Q2Qc 10; Q2Qc 20]); ("b", [Q2Qc 30])]
  /\ ("ffd" = "ffd" \/ "ffd" = "cfd")
  /\ spower (Q2Qc 2) 2 = Ok (Q2Qc 4)
  /\ seqb (Q2Qc 4) szero = false
  /\ Q2Qc 2 <> szero
  /\ (exists gradient st' updated,
         compute_gradient (stub_forward_pass (Q2Qc 2) (Q2Qc 5)) tt
                          [("w", [Q2Qc 10; Q2Qc 20]); ("b", [Q2Qc 30])]
                          ones_sampler "ffd" (mkState 0%nat [])
         = (Ok gradient, st')
         /\ update_weights gradient
                           [("w", [Q2Qc 10; Q2Qc 20]); ("b", [Q2Qc 30])]
                           (Q2Qc 2) (Q2Qc 0.1)
            = Ok updated
         /\ keys updated = ["w"; "b"]
         /\ exists gk, dict_get gradient "b" = Some gk
                       /\ dict_get updated "b"
                          = Some (vadd (vmull (sdiv (sneg (Q2Qc 0.1))
                                                    (Q2Qc 4)) gk)
                                       [Q2Qc 30]))
  /\ (exists gradient st' updated,
         compute_gradient (stub_forward_pass (Q2Qc 2) (Q2Qc 5)) tt
                          [("w", [Q2Qc 10; Q2Qc 20]); ("b", [Q2Qc 30])]
                          ones_sampler "ffd" (mkState 0%nat [])
         = (Ok gradient, st')
         /\ update_weights gradient
                           [("w", [Q2Qc 10; Q2Qc 20]); ("b", [Q2Qc 30])]
                           (Q2Qc 2) (Q2Qc 0.1)
            = Ok updated
         /\ exists gk, dict_get gradient "w" = Some gk
                       /\ dict_get updated "w"
                          = Some (vsub [Q2Qc 10; Q2Qc 20]
                                       (vmull (sdiv (Q2Qc 0.1)
                                                    (smul (Q2Qc 2) (Q2Qc 2)))
                                              gk))).
Proof.
  assert (Hsq : spower (Q2Qc 2) 2 = Ok (Q2Qc 4))
    by (simpl; f_equal; apply Qc_is_canon; reflexivity).
  assert (Hnz : seqb (Q2Qc 4) szero = false) by reflexivity.
  assert (Htwo : Q2Qc 2 <> szero) by (intros E; discriminate E).
  split; [solve_wf|]. split; [now left|]. split; [exact Hsq|].
  split; [exact Hnz|]. split; [exact Htwo|]. split.
  - destruct (proj1 training_step Qc (list Qc) _ _ nat unit
                    (stub_forward_pass (Q2Qc 2) (Q2Qc 5)) tt
                    [("w", [Q2Qc 10; Q2Qc 20]); ("b", [Q2Qc 30])]
                    ones_sampler "ffd" (mkState 0%nat [])
                    (Q2Qc 2) (Q2Qc 0.1) (Q2Qc 4)
                    ltac:(solve_wf) (or_introl eq_refl) Hsq Hnz)
      as (gradient & st' & updated & Hrun & Hup & Hkeys & Hget).
    exists gradient, st', updated.
    split; [exact Hrun|]. split; [exact Hup|]. split; [exact Hkeys|].
    exact (Hget "b" [Q2Qc 30] eq_refl).
  - destruct (proj2 training_step Qc (list Qc) _ _
                    Qc_ScalarLaws QcVec_ShapedLaws nat unit
                    (stub_forward_pass (Q2Qc 2) (Q2Qc 5)) tt
                    [("w", [Q2Qc 10; Q2Qc 20]); ("b", [Q2Qc 30])]
                    ones_sampler "ffd" (mkState 0%nat [])
                    (Q2Qc 2) (Q2Qc 0.1)
                    ltac:(solve_wf) (or_introl eq_refl) Htwo)
      as (gradient & st' & updated & Hrun & Hup & _ & Hget).
    exists gradient, st', updated.
    split; [exact Hrun|]. split; [exact Hup|].
    exact (Hget "w" [Q2Qc 10; Q2Qc 20] eq_refl).
Defined.

(** X12.  In exact arithmetic a forward pass that returns the same loss at
    every point leaves the weights where they are: with a sampler that
    returns values of the shape it is asked for, the training step returns
    a dictionary equal to [params], for either method, every learning rate
    and every nonzero [scale]; the entries of [params] may have different
    shapes. *)
Theorem constant_loss_step :
  forall (Sc V : Type) (HS : Scalar Sc) (HV : Value Sc V)
         (SL : @ScalarLaws Sc HS) (ShL : @ShapedLaws Sc V HS HV)
         (W Inputs : Type)
         (forward_pass : ForwardPass W Inputs) (inputs : Inputs)
         (params : dict V) (sampler : Distribution W) (method : string)
         (st : state W Inputs) (scale lr loss : Sc),
    dict_wf params ->
    method = "ffd" \/ method = "cfd" ->
    scale <> szero ->
    returns_requested_shape sampler ->
    (forall i d w, fst (forward_pass i d w) = loss) ->
    exists gradient st' updated,
      compute_gradient forward_pass inputs params sampler method st
      = (Ok gradient, st')
      /\ update_weights gradient params scale lr = Ok updated
      /\ keys updated = keys params
      /\ dict_eq updated params.
Proof.
  intros Sc V HS HV SL ShL W Inputs forward_pass inputs params sampler method
         st scale lr loss Hwf Hvalid Hs Hsampler Hconst.
  destruct (compute_gradient_valid_run forward_pass inputs sampler st
                                        Hwf Hvalid)
    as (h & w0 & p1 & p2 & w1 & w2 & Hd & Hkeys & Hrun).
  rewrite !Hconst in Hrun.
  assert (Hwfh : dict_wf h) by (unfold dict_wf; now rewrite Hkeys).
  match type of Hrun with _ = (Ok ?g, ?s) => set (gradient := g) in *;
                                             set (st' := s) in * end.
  assert (Hkg : keys gradient = keys params)
    by (unfold gradient; now rewrite dictionary_mult_keys).
  destruct (@update_weights_entries Sc V HS HV gradient params scale lr
              (smul scale scale))
    as (updated & Hup & Hku & Hget);
    auto using spower_square, square_nonzero.
  { unfold dict_wf. now rewrite Hkg. }
  { rewrite Hkg. apply incl_refl. }
  exists gradient, st', updated. split; [assumption|]. split; [assumption|].
  split; [congruence|].
  intros key. destruct (dict_get gradient key) as [gk|] eqn:Hgk.
  - destruct (Hget key gk Hgk) as (p & Hp & Hu). rewrite Hu, Hp. f_equal.
    unfold gradient in Hgk. rewrite dictionary_mult_get in Hgk by assumption.
    destruct (dict_get h key) as [hk|] eqn:Hhk; simpl in Hgk; [|discriminate].
    inversion Hgk; subst. apply update_entry_equal_losses.
    eapply (@draws_shapes Sc V HV W sampler params Hsampler (world st) key).
    + eassumption.
    + now rewrite Hd.
  - apply dict_get_None in Hgk.
    assert (Hu : dict_get updated key = None)
      by (apply dict_get_None; now rewrite Hku).
    assert (Hp : dict_get params key = None)
      by (apply dict_get_None; now rewrite <- Hkg).
    congruence.
Qed.

(** Two entries of different shapes, the all-ones sampler, loss 5 at every
    point. *)
Lemma constant_loss_step_witness :
  dict_wf [("w", [Q2Qc 10; Q2Qc 20]); ("b", [Q2Qc 30])]
  /\ ("cfd" = "ffd" \/ "cfd" = "cfd")
  /\ Q2Qc 2 <> szero
  /\ returns_requested_shape (ones_sampler (W := nat))
  /\ (forall (i : unit) (d : dict (list Qc)) (w : nat),
         fst (stub_forward_pass (Q2Qc 5) (Q2Qc 5) i d w) = Q2Qc 5)
  /\ exists gradient st' updated,
      compute_gradient (stub_forward_pass (Q2Qc 5) (Q2Qc 5)) tt
                       [("w", [Q2Qc 10; Q2Qc 20]); ("b", [Q2Qc 30])]
                       ones_sampler "cfd" (mkState 0%nat [])
      = (Ok gradient, st')
      /\ update_weights gradient [("w", [Q2Qc 10; Q2Qc 20]); ("b", [Q2Qc 30])]
                        (Q2Qc 2) (Q2Qc 0.1)
         = Ok updated
      /\ keys updated = keys [("w", [Q2Qc 10; Q2Qc 20]); ("b", [Q2Qc 30])]
      /\ dict_eq updated [("w", [Q2Qc 10; Q2Qc 20]); ("b", [Q2Qc 30])].
Proof.
  assert (Htwo : Q2Qc 2 <> szero) by (intros E; discriminate E).
  assert (Hones : returns_requested_shape (ones_sampler (W := nat)))
    by (intros n w; simpl; apply repeat_length).
  assert (Hconst : forall (i : unit) (d : dict (list Qc)) (w : nat),
             fst (stub_forward_pass (Q2Qc 5) (Q2Qc 5) i d w) = Q2Qc 5)
    by (intros i d w; unfold stub_forward_pass; simpl;
        now destruct (Nat.eqb w 0)).
  split; [solve_wf|]. split; [now right|]. split; [exact Htwo|].
  split; [exact Hones|]. split; [exact Hconst|].
  exact (@constant_loss_step Qc (list Qc) _ _ Qc_ScalarLaws QcVec_ShapedLaws
           nat unit (stub_forward_pass (Q2Qc 5) (Q2Qc 5)) tt
           [("w", [Q2Qc 10; Q2Qc 20]); ("b", [Q2Qc 30])]
           ones_sampler "cfd" (mkState 0%nat []) (Q2Qc 2) (Q2Qc 0.1) (Q2Qc 5)
           ltac:(solve_wf) (or_intror eq_refl) Htwo Hones Hconst).
Defined.

(** ** The sampler: what it reads and how it composes *)

Section SamplerMore.
Context {Sc V : Type} `{Scalar Sc} `{Value Sc V}.
Context {W Inputs : Type}.
Implicit Types (sampler : Distribution W) (st : state W Inputs).

Lemma sample_loop_layout sampler (items1 : list (string * V)) :
  forall (items2 : list (string * V)) h st,
    layout items1 = layout items2 ->
    sample_loop sampler items1 h st = sample_loop sampler items2 h st.
Proof.
  induction items1 as [|[k1 v1] rest1 IH]; intros [|[k2 v2] rest2] h st Hl;
    simpl in Hl; try discriminate; auto.
  inversion Hl as [[Hk Hs Hrest]]. subst k2. simpl.
  unfold bind, call_sample. rewrite Hs.
  destruct (sample sampler (shape v2) (world st)) as [x w1].
  now apply IH.
Qed.

Lemma draws_app sampler (items1 items2 : list (string * V)) :
  forall w,
    draws sampler (items1 ++ items2) w
    = (fst (draws sampler items1 w)
       ++ fst (draws sampler items2 (snd (draws sampler items1 w))),
       snd (draws sampler items2 (snd (draws sampler items1 w)))).
Proof.
  induction items1 as [|[key val] rest IH]; intros w; simpl.
  - now destruct (draws sampler items2 w).
  - destruct (sample sampler (shape val) w) as [x w1].
    rewrite IH. destruct (draws sampler rest w1) as [r w2]. simpl.
    reflexivity.
Qed.

Lemma sample_events_app (items1 items2 : dict V) :
  (sample_events (items1 ++ items2) : list (event Inputs))
  = sample_events items1 ++ sample_events items2.
Proof. unfold sample_events, values. now rewrite !map_app. Qed.
End SamplerMore.

(** X13.  [sample_perturbation] reads of [params] only the keys, their
    order and the shape of each value: two dictionaries with the same
    layout get the same perturbation, the same calls and the same final
    world, whatever the values are. *)
Theorem sample_perturbation_reads_layout :
  forall (Sc V : Type) (HS : Scalar Sc) (HV : Value Sc V) (W Inputs : Type)
         (sampler : Distribution W) (params1 params2 : dict V)
         (st : state W Inputs),
    layout params1 = layout params2 ->
    sample_perturbation sampler params1 st
    = sample_perturbation sampler params2 st.
Proof.
  intros Sc V HS HV W Inputs sampler params1 params2 st Hl.
  unfold sample_perturbation. now apply sample_loop_layout.
Qed.

Lemma sample_perturbation_reads_layout_witness :
  layout [("w", [Q2Qc 7; Q2Qc 8]); ("b", [Q2Qc 1])]
  = layout [("w", [Q2Qc 0; Q2Qc 0]); ("b", [Q2Qc 9])]
  /\ sample_perturbation (Inputs := unit) counting_sampler
                         [("w", [Q2Qc 7; Q2Qc 8]); ("b", [Q2Qc 1])]
                         (mkState 0%nat [])
     = sample_perturbation counting_sampler
                           [("w", [Q2Qc 0; Q2Qc 0]); ("b", [Q2Qc 9])]
                           (mkState 0%nat []).
Proof.
  split; [reflexivity|].
  exact (@sample_perturbation_reads_layout Qc (list Qc) _ _ nat unit
           counting_sampler
           [("w", [Q2Qc 7; Q2Qc 8]); ("b", [Q2Qc 1])]
           [("w", [Q2Qc 0; Q2Qc 0]); ("b", [Q2Qc 9])]
           (mkState 0%nat []) eq_refl).
Defined.

(** X14.  Sampling for a dictionary is sampling for its first part and then,
    from the state that leaves, for the rest: the perturbation is the
    concatenation of the two perturbations and the final state is that of
    the second run. *)
Theorem sample_perturbation_app :
  forall (Sc V : Type) (HS : Scalar Sc) (HV : Value Sc V) (W Inputs : Type)
         (sampler : Distribution W) (params1 params2 : dict V)
         (st : state W Inputs),
    dict_wf (params1 ++ params2) ->
    exists h1 st1 h2 st2,
      sample_perturbation sampler params1 st = (Ok h1, st1)
      /\ sample_perturbation sampler params2 st1 = (Ok h2, st2)
      /\ sample_perturbation sampler (params1 ++ params2) st
         = (Ok (h1 ++ h2), st2).
Proof.
  intros Sc V HS HV W Inputs sampler params1 params2 st Hwf.
  assert (Hwf1 : dict_wf params1)
    by (unfold dict_wf in *; rewrite keys_app in Hwf;
        eapply NoDup_app_remove_r; eauto).
  assert (Hwf2 : dict_wf params2)
    by (unfold dict_wf in *; rewrite keys_app in Hwf;
        eapply NoDup_app_remove_l; eauto).
  eexists. eexists. eexists. eexists.
  split; [now apply sample_perturbation_wf|].
  split; [now apply sample_perturbation_wf|].
  rewrite sample_perturbation_wf by assumption.
  rewrite draws_app, sample_events_app. simpl.
  now rewrite <- app_assoc.
Qed.

Lemma sample_perturbation_app_witness :
  dict_wf ([("w", [Q2Qc 7; Q2Qc 8])] ++ [("b", [Q2Qc 1])])
  /\ exists h1 st1 h2 st2,
      sample_perturbation (Inputs := unit) counting_sampler
                          [("w", [Q2Qc 7; Q2Qc 8])] (mkState 0%nat [])
      = (Ok h1, st1)
      /\ sample_perturbation counting_sampler [("b", [Q2Qc 1])] st1
         = (Ok h2, st2)
      /\ sample_perturbation counting_sampler
                             ([("w", [Q2Qc 7; Q2Qc 8])] ++ [("b", [Q2Qc 1])])
                             (mkState 0%nat [])
         = (Ok (h1 ++ h2), st2).
Proof.
  split; [solve_wf|].
  exact (@sample_perturbation_app Qc (list Qc) _ _ nat unit counting_sampler
           [("w", [Q2Qc 7; Q2Qc 8])] [("b", [Q2Qc 1])] (mkState 0%nat [])
           ltac:(solve_wf)).
Defined.

(** ** The spiking variant *)

Section SnnFacts.
Context {Sc V : Type} `{Scalar Sc} `{Value Sc V}.
Context {W Inputs Targets : Type}.
Implicit Types (sampler : Distribution W) (st : snn_state W Inputs Targets).
Implicit Types
  (forward_pass : SnnForwardPass (Sc := Sc) (V := V) W Inputs Targets).

Lemma snn_sample_run sampler params st :
  dict_wf params ->
  from_M (sample_perturbation sampler params) st
  = (Ok (fst (draws sampler params (snn_world st))),
     mkSnnState (snd (draws sampler params (snn_world st)))
                (snn_trace st ++ snn_sample_events params)).
Proof.
  intros Hwf. unfold from_M. rewrite sample_perturbation_wf by assumption.
  simpl. unfold sample_events, snn_sample_events.
  now rewrite map_map.
Qed.

Lemma snn_sample_state sampler params st :
  exists h,
    from_M (sample_perturbation sampler params) st
    = (Ok h,
       mkSnnState (snd (draws sampler params (snn_world st)))
                  (snn_trace st ++ snn_sample_events params)).
Proof.
  unfold from_M, sample_perturbation.
  destruct (sample_loop_state (Inputs := Inputs * Targets) sampler params []
                              (mkState (snn_world st) [])) as [h ->].
  exists h. simpl. unfold sample_events, snn_sample_events.
  now rewrite map_map.
Qed.

Lemma compute_snn_gradient_ffd_run forward_pass inputs y params sampler st
      h w0 clean_loss w1 perturbed_loss w2 :
  dict_wf params ->
  draws sampler params (snn_world st) = (h, w0) ->
  forward_pass inputs y None w0 = (clean_loss, w1) ->
  forward_pass inputs y (Some h) w1 = (perturbed_loss, w2) ->
  compute_snn_gradient forward_pass inputs y params sampler "ffd" st
  = (Ok (dictionary_mult h (ssub perturbed_loss clean_loss)),
     mkSnnState w2 (snn_trace st ++ snn_sample_events params
                    ++ [SnnForward inputs y None;
                        SnnForward inputs y (Some h)])).
Proof.
  intros Hwf Hd Hc Hp. unfold compute_snn_gradient, snn_bind.
  rewrite snn_sample_run by assumption. rewrite Hd. simpl.
  unfold snn_call_forward, snn_ret. simpl. rewrite Hc. simpl. rewrite Hp.
  now rewrite <- !app_assoc.
Qed.

Lemma compute_snn_gradient_cfd_run forward_pass inputs y params sampler st
      h w0 perturbed_loss w1 neg_perturbed_loss w2 :
  dict_wf params ->
  draws sampler params (snn_world st) = (h, w0) ->
  forward_pass inputs y (Some h) w0 = (perturbed_loss, w1) ->
  forward_pass inputs y (Some (dictionary_mult h (sneg sone))) w1
  = (neg_perturbed_loss, w2) ->
  compute_snn_gradient forward_pass inputs y params sampler "cfd" st
  = (Ok (dictionary_mult h (ssub perturbed_loss neg_perturbed_loss)),
     mkSnnState w2 (snn_trace st ++ snn_sample_events params
                    ++ [SnnForward inputs y (Some h);
                        SnnForward inputs y
                                   (Some (dictionary_mult h (sneg sone)))])).
Proof.
  intros Hwf Hd Hp Hn. unfold compute_snn_gradient, snn_bind.
  rewrite snn_sample_run by assumption. rewrite Hd. simpl.
  unfold snn_call_forward, snn_ret. simpl. rewrite Hp. simpl. rewrite Hn.
  now rewrite <- !app_assoc.
Qed.

Lemma compute_snn_gradient_invalid_run forward_pass inputs y params sampler
      st method :
  method <> "ffd" -> method <> "cfd" ->
  compute_snn_gradient forward_pass inputs y params sampler method st
  = (Raise (ValueError invalid_option_msg),
     mkSnnState (snd (draws sampler params (snn_world st)))
                (snn_trace st ++ snn_sample_events params)).
Proof.
  intros Hf Hc. unfold compute_snn_gradient, snn_bind.
  destruct (snn_sample_state sampler params st) as [h ->].
  apply String.eqb_neq in Hf, Hc. now rewrite Hf, Hc.
Qed.
End SnnFacts.

(** X15.  [compute_snn_gradient] with ["ffd"]: after sampling [h] it calls
    the forward pass exactly twice, first [forward_pass(inputs, y)] and
    then [forward_pass(inputs, y, h)], and returns at every key
    [h[key] * (perturbed_loss - clean_loss)].  It performs no dictionary
    addition, so [params] itself never reaches the forward pass. *)
Theorem compute_snn_gradient_ffd :
  forall (Sc V : Type) (HS : Scalar Sc) (HV : Value Sc V)
         (W Inputs Targets : Type)
         (forward_pass : SnnForwardPass W Inputs Targets)
         (inputs : Inputs) (y : Targets) (params : dict V)
         (sampler : Distribution W) (st : snn_state W Inputs Targets),
    dict_wf params ->
    exists h w0 clean_loss w1 perturbed_loss w2 gradient,
      draws sampler params (snn_world st) = (h, w0)
      /\ forward_pass inputs y None w0 = (clean_loss, w1)
      /\ forward_pass inputs y (Some h) w1 = (perturbed_loss, w2)
      /\ compute_snn_gradient forward_pass inputs y params sampler "ffd" st
         = (Ok gradient,
            mkSnnState w2 (snn_trace st ++ snn_sample_events params
                           ++ [SnnForward inputs y None;
                               SnnForward inputs y (Some h)]))
      /\ keys gradient = keys params
      /\ forall key hk, dict_get h key = Some hk ->
           dict_get gradient key
           = Some (vmulr hk (ssub perturbed_loss clean_loss)).
Proof.
  intros Sc V HS HV W Inputs Targets forward_pass inputs y params sampler st
         Hwf.
  destruct (draws sampler params (snn_world st)) as [h w0] eqn:Hd.
  assert (Hkeys : keys h = keys params)
    by (change h with (fst (h, w0)); rewrite <- Hd; apply draws_keys).
  assert (Hwfh : dict_wf h) by (unfold dict_wf; now rewrite Hkeys).
  destruct (forward_pass inputs y None w0) as [clean_loss w1] eqn:Hc.
  destruct (forward_pass inputs y (Some h) w1) as [perturbed_loss w2] eqn:Hp.
  exists h, w0, clean_loss, w1, perturbed_loss, w2,
    (dictionary_mult h (ssub perturbed_loss clean_loss)).
  split; [reflexivity|]. split; [assumption|]. split; [assumption|].
  split; [eapply compute_snn_gradient_ffd_run; eassumption|].
  split; [now rewrite dictionary_mult_keys|].
  intros key hk Hhk. now rewrite dictionary_mult_get, Hhk.
Qed.

(** The stub below returns loss 2 without a perturbation and 5 with one;
    its world counts the calls. *)
Lemma compute_snn_gradient_ffd_witness :
  dict_wf [("w", [Q2Qc 7; Q2Qc 8])]
  /\ exists gradient st',
      compute_snn_gradient
        (fun (_ _ : unit) (p : option (dict (list Qc))) (calls : nat) =>
           (match p with None => Q2Qc 2 | Some _ => Q2Qc 5 end, S calls))
        tt tt [("w", [Q2Qc 7; Q2Qc 8])] ones_sampler "ffd"
        (mkSnnState 0%nat [])
      = (Ok gradient, st')
      /\ keys gradient = ["w"]
      /\ snn_world st' = 2%nat.
Proof.
  split; [solve_wf|].
  destruct (@compute_snn_gradient_ffd Qc (list Qc) _ _ nat unit unit
              (fun (_ _ : unit) (p : option (dict (list Qc))) (calls : nat) =>
                 (match p with None => Q2Qc 2 | Some _ => Q2Qc 5 end, S calls))
              tt tt [("w", [Q2Qc 7; Q2Qc 8])] ones_sampler
              (mkSnnState 0%nat []) ltac:(solve_wf))
    as (h & w0 & c & w1 & p & w2 & gradient & Hd & Hc & Hp & Hrun & Hkeys & _).
  exists gradient. eexists. split; [exact Hrun|]. split; [exact Hkeys|].
  simpl. simpl in Hd, Hc, Hp.
  inversion Hd; subst. inversion Hc; subst. now inversion Hp.
Defined.

(** X16.  [compute_snn_gradient] with ["cfd"]: after sampling [h] it calls
    the forward pass exactly twice, with [h] and then with
    [dictionary_mult h (-1)], never without a perturbation, and returns at
    every key [h[key] * (perturbed_loss - neg_perturbed_loss)]. *)
Theorem compute_snn_gradient_cfd :
  forall (Sc V : Type) (HS : Scalar Sc) (HV : Value Sc V)
         (W Inputs Targets : Type)
         (forward_pass : SnnForwardPass W Inputs Targets)
         (inputs : Inputs) (y : Targets) (params : dict V)
         (sampler : Distribution W) (st : snn_state W Inputs Targets),
    dict_wf params ->
    exists h w0 perturbed_loss w1 neg_perturbed_loss w2 gradient,
      draws sampler params (snn_world st) = (h, w0)
      /\ forward_pass inputs y (Some h) w0 = (perturbed_loss, w1)
      /\ forward_pass inputs y (Some (dictionary_mult h (sneg sone))) w1
         = (neg_perturbed_loss, w2)
      /\ compute_snn_gradient forward_pass inputs y params sampler "cfd" st
         = (Ok gradient,
            mkSnnState w2
              (snn_trace st ++ snn_sample_events params
               ++ [SnnForward inputs y (Some h);
                   SnnForward inputs y
                              (Some (dictionary_mult h (sneg sone)))]))
      /\ keys gradient = keys params
      /\ (forall key hk, dict_get h key = Some hk ->
            dict_get gradient key
            = Some (vmulr hk (ssub perturbed_loss neg_perturbed_loss)))
      /\ (forall key hk, dict_get h key = Some hk ->
            dict_get (dictionary_mult h (sneg sone)) key
            = Some (vmulr hk (sneg sone))).
Proof.
  intros Sc V HS HV W Inputs Targets forward_pass inputs y params sampler st
         Hwf.
  destruct (draws sampler params (snn_world st)) as [h w0] eqn:Hd.
  assert (Hkeys : keys h = keys params)
    by (change h with (fst (h, w0)); rewrite <- Hd; apply draws_keys).
  assert (Hwfh : dict_wf h) by (unfold dict_wf; now rewrite Hkeys).
  destruct (forward_pass inputs y (Some h) w0) as [perturbed_loss w1] eqn:Hp.
  destruct (forward_pass inputs y (Some (dictionary_mult h (sneg sone))) w1)
    as [neg_perturbed_loss w2] eqn:Hn.
  exists h, w0, perturbed_loss, w1, neg_perturbed_loss, w2,
    (dictionary_mult h (ssub perturbed_loss neg_perturbed_loss)).
  split; [reflexivity|]. split; [assumption|]. split; [assumption|].
  split; [eapply compute_snn_gradient_cfd_run; eassumption|].
  split; [now rewrite dictionary_mult_keys|].
  split; intros key hk Hhk; now rewrite dictionary_mult_get, Hhk.
Qed.

Lemma compute_snn_gradient_cfd_witness :
  dict_wf [("w", [Q2Qc 7; Q2Qc 8])]
  /\ exists gradient st',
      compute_snn_gradient
        (fun (_ _ : unit) (p : option (dict (list Qc))) (calls : nat) =>
           (if Nat.eqb calls 0 then Q2Qc 5 else Q2Qc 1, S calls))
        tt tt [("w", [Q2Qc 7; Q2Qc 8])] ones_sampler "cfd"
        (mkSnnState 0%nat [])
      = (Ok gradient, st')
      /\ keys gradient = ["w"]
      /\ snn_world st' = 2%nat.
Proof.
  split; [solve_wf|].
  destruct (@compute_snn_gradient_cfd Qc (list Qc) _ _ nat unit unit
              (fun (_ _ : unit) (p : option (dict (list Qc))) (calls : nat) =>
                 (if Nat.eqb calls 0 then Q2Qc 5 else Q2Qc 1, S calls))
              tt tt [("w", [Q2Qc 7; Q2Qc 8])] ones_sampler
              (mkSnnState 0%nat []) ltac:(solve_wf))
    as (h & w0 & p & w1 & n & w2 & gradient & Hd & Hp & Hn & Hrun & Hkeys & _).
  exists gradient. eexists. split; [exact Hrun|]. split; [exact Hkeys|].
  simpl. simpl in Hd, Hp, Hn.
  inversion Hd; subst. inversion Hp; subst. now inversion Hn.
Defined.

(** X17.  [compute_snn_gradient] with a method other than ["ffd"] and
    ["cfd"] raises the [ValueError] after sampling: the sampler has been
    called once per key of [params], the forward pass not at all. *)
Theorem compute_snn_gradient_invalid_method :
  forall (Sc V : Type) (HS : Scalar Sc) (HV : Value Sc V)
         (W Inputs Targets : Type)
         (forward_pass : SnnForwardPass W Inputs Targets)
         (inputs : Inputs) (y : Targets) (params : dict V)
         (sampler : Distribution W) (method : string)
         (st : snn_state W Inputs Targets),
    method <> "ffd" -> method <> "cfd" ->
    compute_snn_gradient forward_pass inputs y params sampler method st
    = (Raise (ValueError invalid_option_msg),
       mkSnnState (snd (draws sampler params (snn_world st)))
                  (snn_trace st ++ snn_sample_events params))
    /\ List.length (snn_sample_events params
                    : list (snn_event Inputs Targets))
       = List.length (keys params)
    /\ Forall (fun e => match e with
                        | SnnSample _ => True
                        | SnnForward _ _ _ => False
                        end)
              (snn_sample_events params : list (snn_event Inputs Targets)).
Proof.
  intros Sc V HS HV W Inputs Targets forward_pass inputs y params sampler
         method st Hf Hc.
  split; [now apply compute_snn_gradient_invalid_run|].
  unfold snn_sample_events, values, keys. split.
  - now rewrite !length_map.
  - apply Forall_forall. intros e He.
    apply in_map_iff in He. destruct He as (val & <- & _). exact I.
Qed.

Lemma compute_snn_gradient_invalid_method_witness :
  "adam" <> "ffd" /\ "adam" <> "cfd"
  /\ compute_snn_gradient
       (fun (_ _ : unit) (p : option (dict (list Qc))) (calls : nat) =>
          (Q2Qc 2, S calls))
       tt tt [("w", [Q2Qc 7; Q2Qc 8]); ("b", [Q2Qc 1])] counting_sampler
       "adam" (mkSnnState 0%nat [])
     = (Raise (ValueError invalid_option_msg),
        mkSnnState 2%nat [SnnSample 2%nat; SnnSample 1%nat]).
Proof.
  split; [discriminate|]. split; [discriminate|].
  exact (proj1 (@compute_snn_gradient_invalid_method Qc (list Qc) _ _
                  nat unit unit
                  (fun (_ _ : unit) (p : option (dict (list Qc)))
                       (calls : nat) => (Q2Qc 2, S calls))
                  tt tt [("w", [Q2Qc 7; Q2Qc 8]); ("b", [Q2Qc 1])]
                  counting_sampler "adam" (mkSnnState 0%nat [])
                  ltac:(discriminate) ltac:(discriminate))).
Defined.

(** X18.  [compute_snn_gradient] reads of [params] only the layout (keys,
    order, shapes): on two dictionaries with the same layout it makes the
    same calls and returns the same result, whatever the weights are. *)
Theorem compute_snn_gradient_reads_layout :
  forall (Sc V : Type) (HS : Scalar Sc) (HV : Value Sc V)
         (W Inputs Targets : Type)
         (forward_pass : SnnForwardPass W Inputs Targets)
         (inputs : Inputs) (y : Targets) (params1 params2 : dict V)
         (sampler : Distribution W) (method : string)
         (st : snn_state W Inputs Targets),
    layout params1 = layout params2 ->
    compute_snn_gradient forward_pass inputs y params1 sampler method st
    = compute_snn_gradient forward_pass inputs y params2 sampler method st.
Proof.
  intros Sc V HS HV W Inputs Targets forward_pass inputs y params1 params2
         sampler method st Hl.
  unfold compute_snn_gradient, snn_bind, from_M, sample_perturbation.
  now rewrite (sample_loop_layout sampler params1 params2 []
                                  (mkState (snn_world st) []) Hl).
Qed.

Lemma compute_snn_gradient_reads_layout_witness :
  layout [("w", [Q2Qc 7; Q2Qc 8])] = layout [("w", [Q2Qc 0; Q2Qc 0])]
  /\ compute_snn_gradient
       (fun (_ _ : unit) (p : option (dict (list Qc))) (calls : nat) =>
          (match p with None => Q2Qc 2 | Some _ => Q2Qc 5 end, S calls))
       tt tt [("w", [Q2Qc 7; Q2Qc 8])] ones_sampler "ffd"
       (mkSnnState 0%nat [])
     = compute_snn_gradient
         (fun (_ _ : unit) (p : option (dict (list Qc))) (calls : nat) =>
            (match p with None => Q2Qc 2 | Some _ => Q2Qc 5 end, S calls))
         tt tt [("w", [Q2Qc 0; Q2Qc 0])] ones_sampler "ffd"
         (mkSnnState 0%nat []).
Proof.
  split; [reflexivity|].
  exact (@compute_snn_gradient_reads_layout Qc (list Qc) _ _ nat unit unit
           (fun (_ _ : unit) (p : option (dict (list Qc))) (calls : nat) =>
              (match p with None => Q2Qc 2 | Some _ => Q2Qc 5 end, S calls))
           tt tt [("w", [Q2Qc 7; Q2Qc 8])] [("w", [Q2Qc 0; Q2Qc 0])]
           ones_sampler "ffd" (mkSnnState 0%nat []) eq_refl).
Defined.

(** X19.  [compute_gradient] is [compute_snn_gradient] run on the forward
    pass that applies the perturbation itself ([perturbing_forward_pass]:
    [params] without a perturbation, [dictionary_add params p] with
    perturbation [p]): from the same world both return the same gradient or
    raise the same exception, and leave the same world. *)
Theorem compute_gradient_as_snn :
  forall (Sc V : Type) (HS : Scalar Sc) (HV : Value Sc V)
         (W Inputs Targets : Type)
         (forward_pass : ForwardPass W Inputs)
         (inputs : Inputs) (y : Targets) (params : dict V)
         (sampler : Distribution W) (method : string)
         (st : state W Inputs) (sst : snn_state W Inputs Targets),
    dict_wf params ->
    snn_world sst = world st ->
    fst (compute_snn_gradient (perturbing_forward_pass forward_pass params)
                              inputs y params sampler method sst)
    = fst (compute_gradient forward_pass inputs params sampler method st)
    /\ snn_world
         (snd (compute_snn_gradient
                 (perturbing_forward_pass forward_pass params)
                 inputs y params sampler method sst))
       = world (snd (compute_gradient forward_pass inputs params sampler
                                      method st)).
Proof.
  intros Sc V HS HV W Inputs Targets forward_pass inputs y params sampler
         method st sst Hwf Hworld.
  destruct (method_cases method) as [[-> | ->] | [Hf Hc]].
  - destruct (draws sampler params (world st)) as [h w0] eqn:Hd.
    assert (Hkeys : keys h = keys params)
      by (change h with (fst (h, w0)); rewrite <- Hd; apply draws_keys).
    destruct (dictionary_add_same_keys h Hwf Hkeys) as (perturbed & Hadd & _).
    destruct (forward_pass inputs params w0) as [clean_loss w1] eqn:Hcl.
    destruct (forward_pass inputs perturbed w1) as [perturbed_loss w2] eqn:Hp.
    erewrite compute_gradient_ffd_run by eassumption.
    erewrite (compute_snn_gradient_ffd_run (Targets := Targets));
      [split; reflexivity | assumption | rewrite Hworld; eassumption
       | simpl; eassumption | simpl; rewrite Hadd; eassumption].
  - destruct (draws sampler params (world st)) as [h w0] eqn:Hd.
    assert (Hkeys : keys h = keys params)
      by (change h with (fst (h, w0)); rewrite <- Hd; apply draws_keys).
    assert (Hwfh : dict_wf h) by (unfold dict_wf; now rewrite Hkeys).
    destruct (dictionary_add_same_keys h Hwf Hkeys) as (perturbed & Hadd & _).
    destruct (dictionary_add_same_keys (dictionary_mult h (sneg sone)) Hwf)
      as (neg_perturbed & Hneg & _).
    { now rewrite dictionary_mult_keys. }
    destruct (forward_pass inputs perturbed w0) as [perturbed_loss w1] eqn:Hp.
    destruct (forward_pass inputs neg_perturbed w1)
      as [neg_perturbed_loss w2] eqn:Hn.
    erewrite compute_gradient_cfd_run by eassumption.
    erewrite (compute_snn_gradient_cfd_run (Targets := Targets));
      [split; reflexivity | assumption | rewrite Hworld; eassumption
       | simpl; rewrite Hadd; eassumption
       | simpl; rewrite Hneg; eassumption].
  - rewrite compute_gradient_invalid_run by assumption.
    rewrite compute_snn_gradient_invalid_run by assumption.
    simpl. now rewrite Hworld.
Qed.

Lemma compute_gradient_as_snn_witness :
  dict_wf [("w", [Q2Qc 7; Q2Qc 8])]
  /\ fst (compute_snn_gradient
            (perturbing_forward_pass (Targets := unit)
               (stub_forward_pass (Q2Qc 5) (Q2Qc 1))
               [("w", [Q2Qc 7; Q2Qc 8])])
            tt tt [("w", [Q2Qc 7; Q2Qc 8])] ones_sampler "cfd"
            (mkSnnState 0%nat []))
     = fst (compute_gradient (stub_forward_pass (Q2Qc 5) (Q2Qc 1)) tt
                             [("w", [Q2Qc 7; Q2Qc 8])] ones_sampler "cfd"
                             (mkState 0%nat [])).
Proof.
  split; [solve_wf|].
  exact (proj1 (@compute_gradient_as_snn Qc (list Qc) _ _ nat unit unit
                  (stub_forward_pass (Q2Qc 5) (Q2Qc 1)) tt tt
                  [("w", [Q2Qc 7; Q2Qc 8])] ones_sampler "cfd"
                  (mkState 0%nat []) (mkSnnState 0%nat [])
                  ltac:(solve_wf) eq_refl)).
Defined.
